(** * berlin-photoblog: the shuffler and the batch loader of [src/App.js]

    The development embeds the two pieces of logic of the gallery component:

    - [shuffleArray], the in-place shuffle applied once to the list of
      document ids;
    - [fetchPhotoBatch], the asynchronous, lock-guarded batch loader, split
      at its single suspension point ([await Promise.all]) into the
      synchronous prefix and the continuation.

    JavaScript arrays are lists, array reads are stdpp lookups, objects are
    finite maps from property names to values, [Set] is [gset].  React state
    is a record; the values a callback captured when it was rendered are a
    separate record, so that what the code reads from its closure and what
    it reads through a functional updater stay apart. *)

From Stdlib Require Import QArith Qround Lqa.
From stdpp Require Import base list gmap strings fin_maps.

Local Open Scope nat_scope.

(** ** JavaScript arrays *)

Module JsArray.
Section array.
Context {A : Type}.

(** An array is a list of slots; a slot holds a value or [undefined] (a
    hole reads as [undefined] as well). *)

(** [array[i]]: a read out of range gives [undefined]. *)
Definition get (array : list (option A)) (i : nat) : option A :=
  mjoin (array !! i).

(** [array[i] = v]: a write past the end extends the array, the slots in
    between are holes. *)
Definition set (i : nat) (v : option A) (array : list (option A))
  : list (option A) :=
  if decide (i < length array) then <[i := v]> array
  else array ++ replicate (i - length array) None ++ [v].

(** [[array[i], array[j]] = [array[j], array[i]]]: the right-hand side is
    evaluated first, then the two targets are assigned left to right. *)
Definition swap (i j : nat) (array : list (option A)) : list (option A) :=
  let rhs0 := get array j in
  let rhs1 := get array i in
  set j rhs1 (set i rhs0 array).

(** The array holding the elements of [l], without holes. *)
Definition of_list (l : list A) : list (option A) := Some <$> l.
End array.
End JsArray.

(** ** The shuffler *)

(** [Math.floor(Math.random() * currentIndex)], for the value [r] returned
    by [Math.random()].  Numbers are taken as exact rationals: the rounding
    of the double-precision product is not modelled. *)
Definition randomIndex (r : Q) (currentIndex : nat) : nat :=
  Z.to_nat (Qfloor (r * inject_Z (Z.of_nat currentIndex))).

(** The contract of [Math.random()]: a number in [0, 1). *)
Definition unit_interval (r : Q) : Prop := (0 <= r)%Q ∧ (r < 1)%Q.

Section shuffle.
Context {A : Type}.

(** [random k] is the value returned by the [k]-th call of
    [Math.random()] made by the shuffle. *)
Variable random : nat → Q.

(** The [while (currentIndex !== 0)] loop; [calls] counts the draws made
    so far. *)
Fixpoint shuffle_loop (calls currentIndex : nat) (array : list (option A))
  : list (option A) :=
  match currentIndex with
  | 0 => array
  | S currentIndex' =>
      let randomIndex := randomIndex (random calls) currentIndex in
      shuffle_loop (S calls) currentIndex'
        (JsArray.swap currentIndex' randomIndex array)
  end.

Definition shuffleArray (array : list (option A)) : list (option A) :=
  shuffle_loop 0 (length array) array.
End shuffle.

(** *** The Fisher–Yates shuffle as the specification words it

    For index [i] from [length - 1] down to [1], draw [j] from [[0, i]] and
    swap the elements at [i] and [j].  [draw i] is the [j] drawn for
    index [i]. *)
Section fisher_yates.
Context {A : Type}.

Definition swap_elements (i j : nat) (l : list A) : list A :=
  match l !! i, l !! j with
  | Some x, Some y => <[j := x]> (<[i := y]> l)
  | _, _ => l
  end.

Fixpoint fisher_yates_down (draw : nat → nat) (i : nat) (l : list A)
  : list A :=
  match i with
  | 0 => l
  | S i' => fisher_yates_down draw i' (swap_elements i (draw i) l)
  end.

Definition fisher_yates (draw : nat → nat) (l : list A) : list A :=
  fisher_yates_down draw (length l - 1) l.
End fisher_yates.

(** The index the source draws for position [i] (that is, while
    [currentIndex = i + 1]) in a shuffle of [n] elements: the loop runs from
    the last position down, so it is computed from draw number
    [n - 1 - i]. *)
Definition drawn (random : nat → Q) (n i : nat) : nat :=
  randomIndex (random (n - 1 - i)) (i + 1).

(** *** The shuffler in double precision

    [Math.random() * currentIndex] is a product of doubles: the real
    product rounded to the nearest binary64 number, ties to even.  The
    definitions below carry that rounding; [shuffleArray] above is the same
    loop with the product taken exactly. *)

Module Binary64.

(** The nearest integer, ties to the even one. *)
Definition round_half_even (q : Q) : Z :=
  let f := Qfloor q in
  match (q - inject_Z f ?= 1 # 2)%Q with
  | Lt => f
  | Gt => (f + 1)%Z
  | Eq => if Z.even f then f else (f + 1)%Z
  end.

(** [floor (log2 x)] for [x > 0]: the difference of the bit lengths of
    numerator and denominator, or one less. *)
Definition ilog2 (x : Q) : Z :=
  let a := Qnum x in
  let b := Z.pos (Qden x) in
  let d := (Z.log2 a - Z.log2 b)%Z in
  if (b * 2 ^ Z.max d 0 <=? a * 2 ^ Z.max (- d) 0)%Z then d else (d - 1)%Z.

(** The binary64 number nearest to [x > 0] (below the overflow
    threshold): 53 significant bits, the unit in the last place [2^e] with
    [e = max (floor (log2 x) - 52) (-1074)], the lower bound being the
    spacing of the subnormal numbers. *)
Definition round_positive (x : Q) : Q :=
  let e := Z.max (ilog2 x - 52) (-1074) in
  if (e <=? 0)%Z then
    inject_Z (round_half_even (x * inject_Z (2 ^ (- e)))) / inject_Z (2 ^ (- e))
  else
    inject_Z (round_half_even (x / inject_Z (2 ^ e)) * 2 ^ e).

Definition round (x : Q) : Q :=
  match (x ?= 0)%Q with
  | Eq => 0%Q
  | Gt => round_positive x
  | Lt => (- round_positive (- x))%Q
  end.

(** [Math.floor(Math.random() * currentIndex)] for the double [r] returned
    by [Math.random()]. *)
Definition randomIndex (r : Q) (currentIndex : nat) : nat :=
  Z.to_nat (Qfloor (round (r * inject_Z (Z.of_nat currentIndex)))).

Section shuffle.
Context {A : Type}.
Variable random : nat → Q.

Fixpoint shuffle_loop (calls currentIndex : nat) (array : list (option A))
  : list (option A) :=
  match currentIndex with
  | 0 => array
  | S currentIndex' =>
      let randomIndex := randomIndex (random calls) currentIndex in
      shuffle_loop (S calls) currentIndex'
        (JsArray.swap currentIndex' randomIndex array)
  end.

Definition shuffleArray (array : list (option A)) : list (option A) :=
  shuffle_loop 0 (length array) array.
End shuffle.

(** The index drawn for position [i] in a shuffle of [n] elements. *)
Definition drawn (random : nat → Q) (n i : nat) : nat :=
  randomIndex (random (n - 1 - i)) (i + 1).
End Binary64.

(** What every double in [0, 1) satisfies: the largest of them is
    [1 - 2^-53]. *)
Definition double_unit (r : Q) : Prop :=
  (0 <= r)%Q ∧ (r <= 1 - (1 # 2 ^ 53))%Q.

(** ** The batch loader *)

(** *** Values, records and the remote store *)

(** Property values of the objects the loader builds and receives: strings
    (document ids, urls, descriptions) and numbers (the animation index). *)
Inductive Value :=
  | VStr (s : string)
  | VNum (n : Z).

#[global] Instance Value_eq_dec : EqDecision Value.
Proof. solve_decision. Defined.

#[global] Instance Value_countable : Countable Value.
Proof.
  refine (inj_countable'
            (λ v, match v with VStr s => inl s | VNum n => inr n end)
            (λ x, match x with inl s => VStr s | inr n => VNum n end) _).
  by intros [].
Defined.

(** A JavaScript object: a finite map from property names to values. *)
Abbreviation Obj := (gmap string Value).

(** A Firestore document snapshot: [d.id] is the key the document was asked
    for, [d.data()] its fields, [undefined] when the document does not
    exist. *)
Record DocumentSnapshot := {
  d_id : string;
  d_data : option Obj
}.

(** The remote store as one batch sees it: a read of a key rejects ([None])
    or resolves with the fields of the document. *)
Abbreviation Remote := (string → option (option Obj)).

(** [getDoc(doc(db, 'photos', id))], settled. *)
Definition getDoc (remote : Remote) (id : string) : option DocumentSnapshot :=
  data ← remote id; Some {| d_id := id; d_data := data |}.

(** [Promise.all]: rejects as soon as one promise rejects, otherwise
    resolves with the results in request order. *)
Definition Promise_all {A} (promises : list (option A)) : option (list A) :=
  mapM id promises.

(** [array.slice(start, end)] for [0 <= start <= end]. *)
Definition slice {A} (start end_ : nat) (array : list A) : list A :=
  take (end_ - start) (drop start array).

(** [...source] inside an object literal whose properties so far are
    [target]: the properties of [source] override those written before the
    spread; spreading [undefined] adds nothing. *)
Definition spread (source : option Obj) (target : Obj) : Obj :=
  default ∅ source ∪ target.

(** [p.id], [undefined] when the property is missing. *)
Definition photo_id (p : Obj) : option Value := p !! "id"%string.

Definition photo_index (p : Obj) : option Value := p !! "index"%string.

Definition BATCH_SIZE : nat := 12.

(** [{ id: d.id, ...d.data(), index: currentIndex + i }] *)
Definition newPhoto (currentIndex i : nat) (d : DocumentSnapshot) : Obj :=
  <["index"%string := VNum (Z.of_nat (currentIndex + i))]>
    (spread (d_data d) (<["id"%string := VStr (d_id d)]> ∅)).

(** The updater passed to [setPhotos]. *)
Definition mergePhotos (newPhotos prevPhotos : list Obj) : list Obj :=
  let existingIds : gset (option Value) := list_to_set (photo_id <$> prevPhotos) in
  let uniqueNewPhotos := filter (λ p, photo_id p ∉ existingIds) newPhotos in
  prevPhotos ++ uniqueNewPhotos.

(** *** Component state *)

(** The [useState] cells of [App] that the loader touches, and the
    [loadingRef] lock.  A cell holds the latest value, pending updates
    applied: the loader itself never reads a cell, it reads the values its
    closure captured and updates through setters. *)
Record State := {
  photos : list Obj;
  shuffledPhotoIds : list string;
  currentIndex : nat;
  loading : bool;
  allLoaded : bool;
  loadingRef : bool
}.

(** What one rendering of [fetchPhotoBatch] captured: the dependency list
    of its [useCallback]. *)
Record Closure := {
  cl_currentIndex : nat;
  cl_shuffledPhotoIds : list string;
  cl_allLoaded : bool
}.

(** The callback React renders from a state. *)
Definition render (s : State) : Closure :=
  {| cl_currentIndex := currentIndex s;
     cl_shuffledPhotoIds := shuffledPhotoIds s;
     cl_allLoaded := allLoaded s |}.

(** A call suspended at [await Promise.all(photoPromises)]: the requested
    window and the cursor its continuation will tag the records with. *)
Record Pending := {
  p_nextBatchIds : list string;
  p_currentIndex : nat
}.

(** The component and its surroundings: the state, the calls in flight,
    the windows fanned out so far (oldest first), the number of
    [console.error] lines, and the callback the scroll handler and the
    effects currently hold. *)
Record Component := {
  state : State;
  inflight : list Pending;
  fanouts : list (list string);
  errors : nat;
  callback : Closure
}.

Definition with_state (f : State → State) (c : Component) : Component :=
  {| state := f (state c); inflight := inflight c; fanouts := fanouts c;
     errors := errors c; callback := callback c |}.

Definition setPhotos (f : list Obj → list Obj) : Component → Component :=
  with_state (λ s,
    {| photos := f (photos s); shuffledPhotoIds := shuffledPhotoIds s;
       currentIndex := currentIndex s; loading := loading s;
       allLoaded := allLoaded s; loadingRef := loadingRef s |}).

Definition setCurrentIndex (f : nat → nat) : Component → Component :=
  with_state (λ s,
    {| photos := photos s; shuffledPhotoIds := shuffledPhotoIds s;
       currentIndex := f (currentIndex s); loading := loading s;
       allLoaded := allLoaded s; loadingRef := loadingRef s |}).

Definition setLoading (b : bool) : Component → Component :=
  with_state (λ s,
    {| photos := photos s; shuffledPhotoIds := shuffledPhotoIds s;
       currentIndex := currentIndex s; loading := b;
       allLoaded := allLoaded s; loadingRef := loadingRef s |}).

Definition setAllLoaded (b : bool) : Component → Component :=
  with_state (λ s,
    {| photos := photos s; shuffledPhotoIds := shuffledPhotoIds s;
       currentIndex := currentIndex s; loading := loading s;
       allLoaded := b; loadingRef := loadingRef s |}).

(** [loadingRef.current = b] *)
Definition set_loadingRef (b : bool) : Component → Component :=
  with_state (λ s,
    {| photos := photos s; shuffledPhotoIds := shuffledPhotoIds s;
       currentIndex := currentIndex s; loading := loading s;
       allLoaded := allLoaded s; loadingRef := b |}).

Definition console_error (c : Component) : Component :=
  {| state := state c; inflight := inflight c; fanouts := fanouts c;
     errors := S (errors c); callback := callback c |}.

(** The fan-out: one [getDoc] per id of the window, then the call suspends
    on the join. *)
Definition await_all (p : Pending) (c : Component) : Component :=
  {| state := state c; inflight := inflight c ++ [p];
     fanouts := fanouts c ++ [p_nextBatchIds p];
     errors := errors c; callback := callback c |}.

(** *** [fetchPhotoBatch] *)

(** The [finally] block. *)
Definition finally (c : Component) : Component :=
  set_loadingRef false (setLoading false c).

(** The window sliced from the captured order at the captured cursor. *)
Definition nextBatchIds (cl : Closure) : list string :=
  slice (cl_currentIndex cl) (cl_currentIndex cl + BATCH_SIZE)
        (cl_shuffledPhotoIds cl).

(** [nextBatchIds.length === 0 && shuffledPhotoIds.length > 0] *)
Definition exhausted (cl : Closure) : bool :=
  (length (nextBatchIds cl) =? 0) && (0 <? length (cl_shuffledPhotoIds cl)).

(** A call of the callback [cl], up to its first suspension: either it
    returns at the guard, or it runs the exhaustion branch to the end
    ([finally] included), or it fans out and suspends. *)
Definition fetchPhotoBatch (cl : Closure) (c : Component) : Component :=
  if loadingRef (state c) || cl_allLoaded cl then c
  else
    let c := setLoading true (set_loadingRef true c) in
    if exhausted cl then finally (setAllLoaded true c)
    else await_all {| p_nextBatchIds := nextBatchIds cl;
                      p_currentIndex := cl_currentIndex cl |} c.

(** [photoDocs.map((d, i) => ...)] *)
Definition newPhotos (currentIndex : nat) (photoDocs : list DocumentSnapshot)
  : list Obj :=
  imap (newPhoto currentIndex) photoDocs.

(** The continuation of the suspended call [p] once the join settles
    against [remote]: the rest of the [try] block, or the [catch] block,
    then [finally]. *)
Definition fetchPhotoBatch_resume (p : Pending) (remote : Remote)
    (c : Component) : Component :=
  match Promise_all (getDoc remote <$> p_nextBatchIds p) with
  | Some photoDocs =>
      let c := setPhotos (mergePhotos (newPhotos (p_currentIndex p) photoDocs)) c in
      let c := setCurrentIndex (λ prev, prev + BATCH_SIZE) c in
      finally c
  | None => finally (console_error c)
  end.

(** *** The component as a transition system *)

Inductive Event :=
  | Render                      (* React re-renders: handlers get the callback of the current state *)
  | Trigger                     (* the scroll handler or the first-batch effect calls the callback *)
  | Settle (remote : Remote).   (* the join of the oldest call in flight settles *)

Definition step (e : Event) (c : Component) : Component :=
  match e with
  | Render =>
      {| state := state c; inflight := inflight c; fanouts := fanouts c;
         errors := errors c; callback := render (state c) |}
  | Trigger => fetchPhotoBatch (callback c) c
  | Settle remote =>
      match inflight c with
      | [] => c
      | p :: rest =>
          fetchPhotoBatch_resume p remote
            {| state := state c; inflight := rest; fanouts := fanouts c;
               errors := errors c; callback := callback c |}
      end
  end.

Fixpoint run (events : list Event) (c : Component) : Component :=
  match events with
  | [] => c
  | e :: events' => run events' (step e c)
  end.

(** The component once the shuffled order is in place, rendered, with
    nothing loaded yet. *)
Definition init_state (ids : list string) : State :=
  {| photos := []; shuffledPhotoIds := ids; currentIndex := 0;
     loading := false; allLoaded := false; loadingRef := false |}.

Definition init (ids : list string) : Component :=
  {| state := init_state ids; inflight := []; fanouts := []; errors := 0;
     callback := render (init_state ids) |}.

(** Whether event [e] completes a batch load successfully in [c]. *)
Definition succeeds (e : Event) (c : Component) : bool :=
  match e, inflight c with
  | Settle remote, p :: _ =>
      bool_decide (is_Some (Promise_all (getDoc remote <$> p_nextBatchIds p)))
  | _, _ => false
  end.

(** The number of successful batch loads along a run. *)
Fixpoint successes (events : list Event) (c : Component) : nat :=
  match events with
  | [] => 0
  | e :: events' =>
      (if succeeds e c then 1 else 0) + successes events' (step e c)
  end.

(** Every call along the run is made through the callback rendered from the
    state it is made in: React has re-rendered since the last change of the
    cursor, the order or the exhaustion flag. *)
Fixpoint triggers_rendered (events : list Event) (c : Component) : Prop :=
  match events with
  | [] => True
  | e :: events' =>
      (e = Trigger → callback c = render (state c)) ∧
      triggers_rendered events' (step e c)
  end.

(** [ceil(N / WINDOW) * WINDOW], the bound the specification puts on the
    cursor. *)
Definition cursor_cap (N : nat) : nat :=
  (N + BATCH_SIZE - 1) / BATCH_SIZE * BATCH_SIZE.

(** [n] rounds of a trigger followed by the settlement of its batch, one
    round per remote answer. *)
Definition rounds (remotes : list Remote) : list Event :=
  remotes ≫= λ remote, [Trigger; Settle remote].

(** What ties the lock to the calls in flight: the lock is free, the
    indicator is off and nothing is in flight, or the lock is held, the
    indicator is on and exactly one call is suspended. *)
Definition single_flight (c : Component) : Prop :=
  (loadingRef (state c) = false ∧ loading (state c) = false ∧ inflight c = []) ∨
  (loadingRef (state c) = true ∧ loading (state c) = true ∧
   ∃ p, inflight c = [p]).

(** Once the flag is set nothing is in flight, and the callback in the
    handlers either has seen the flag or is the one that found its window
    empty. *)
Definition exhaustion_seen (c : Component) : Prop :=
  allLoaded (state c) = true →
  inflight c = [] ∧
  (cl_allLoaded (callback c) = true ∨ exhausted (callback c) = true).

(** A remote answer whose documents do not carry an [id] field of their
    own, so that the record built from a document is identified by the
    document key. *)
Definition keyed_by_document (e : Event) : Prop :=
  match e with
  | Settle remote =>
      ∀ id data, remote id = Some (Some data) → data !! "id"%string = None
  | _ => True
  end.

(** The invariant behind the uniqueness of ids: the loaded ids, every
    window in flight and the order, as stored and as captured, are free of
    duplicates. *)
Definition duplicate_free (c : Component) : Prop :=
  NoDup (photo_id <$> photos (state c)) ∧
  Forall (λ p, NoDup (p_nextBatchIds p)) (inflight c) ∧
  NoDup (cl_shuffledPhotoIds (callback c)) ∧
  NoDup (shuffledPhotoIds (state c)).

(** The invariant behind the bound on the cursor, for the order [ids]: the
    cursor is a multiple of the window size within the bound, and stands
    inside the order while a call is in flight. *)
Definition within_cap (ids : list string) (c : Component) : Prop :=
  shuffledPhotoIds (state c) = ids ∧
  (BATCH_SIZE | currentIndex (state c)) ∧
  currentIndex (state c) ≤ cursor_cap (length ids) ∧
  (inflight c ≠ [] → currentIndex (state c) < length ids).

(** The invariant of a component whose order is empty: the flag is never
    set, nothing is loaded, and every window in flight is empty. *)
Definition empty_order (c : Component) : Prop :=
  shuffledPhotoIds (state c) = [] ∧
  cl_shuffledPhotoIds (callback c) = [] ∧
  allLoaded (state c) = false ∧
  cl_allLoaded (callback c) = false ∧
  photos (state c) = [] ∧
  Forall (λ p, p_nextBatchIds p = []) (inflight c).

(** ** The rest of [App] *)

(** *** Enumerating the ids: [fetchAllPhotoIds] *)

Definition setShuffledPhotoIds (ids : list string) : Component → Component :=
  with_state (λ s,
    {| photos := photos s; shuffledPhotoIds := ids;
       currentIndex := currentIndex s; loading := loading s;
       allLoaded := allLoaded s; loadingRef := loadingRef s |}).

(** The state cell holds an array of strings: an array read back slot by
    slot, [None] when one of its slots is [undefined]. *)
Definition strings_of_array (array : list (option string)) : option (list string) :=
  mapM id array.

(** [fetchAllPhotoIds], up to [await getDocs(photosCollection)]. *)
Definition fetchAllPhotoIds (c : Component) : Component :=
  setLoading true c.

(** Its continuation.  [photoSnapshot] is [None] when [getDocs] rejects:
    nothing after the [await] runs (the function has no [catch]).
    Otherwise the ids of the documents are shuffled with the draws [random]
    and stored.  The result is [None] only if the shuffled array has a
    hole, which the state cell cannot hold. *)
Definition fetchAllPhotoIds_resume (random : nat → Q)
    (photoSnapshot : option (list DocumentSnapshot)) (c : Component)
  : option Component :=
  match photoSnapshot with
  | None => Some c
  | Some docs =>
      let ids := d_id <$> docs in
      shuffled ← strings_of_array (shuffleArray random (JsArray.of_list ids));
      Some (setLoading false (setShuffledPhotoIds shuffled c))
  end.

(** The component after its first render and the start of the enumeration:
    no ids yet. *)
Definition mounted : Component := fetchAllPhotoIds (init []).

(** *** The scroll handler *)

(** [window.innerHeight + document.documentElement.scrollTop >=
    document.documentElement.offsetHeight - 500] *)
Definition near_bottom (innerHeight scrollTop offsetHeight : Q) : bool :=
  Qle_bool (offsetHeight - 500) (innerHeight + scrollTop).

Definition handleScroll (innerHeight scrollTop offsetHeight : Q)
    (c : Component) : Component :=
  if near_bottom innerHeight scrollTop offsetHeight then step Trigger c else c.

(** *** The modal *)

(** JavaScript truthiness of a property value; [None] stands for [null]
    and [undefined]. *)
Definition truthy (v : option Value) : bool :=
  match v with
  | None => false
  | Some (VStr s) => negb (String.eqb s "")
  | Some (VNum n) => negb (n =? 0)%Z
  end.

(** What [Modal] renders: nothing ([if (!imageUrl) return null]) or the
    overlay around the image, given here by the [src] of the image. *)
Definition Modal (imageUrl : option Value) : option Value :=
  if truthy imageUrl then imageUrl else None.

(** The elements of the modal. *)
Inductive ModalNode :=
  | Overlay        (* div.modal-overlay *)
  | Content        (* div.modal-content *)
  | CloseButton    (* button.modal-close *)
  | Image.         (* img *)

Inductive ClickHandler :=
  | OnClose
  | StopPropagation.

(** The [onClick] props of the elements. *)
Definition onClick (node : ModalNode) : option ClickHandler :=
  match node with
  | Overlay => Some OnClose
  | Content => Some StopPropagation
  | CloseButton => Some OnClose
  | Image => None
  end.

Definition parentNode (node : ModalNode) : option ModalNode :=
  match node with
  | Overlay => None
  | Content => Some Overlay
  | CloseButton => Some Content
  | Image => Some Content
  end.

(** A click bubbles from its target to the root, running the handler of
    each element on the way until one stops the propagation; the result is
    the number of times [onClose] is called.  [depth] bounds the length of
    the path. *)
Fixpoint bubble (depth : nat) (node : ModalNode) : nat :=
  match depth with
  | 0 => 0
  | S depth' =>
      let up := match parentNode node with
                | Some parent => bubble depth' parent
                | None => 0
                end in
      match onClick node with
      | Some OnClose => S up
      | Some StopPropagation => 0
      | None => up
      end
  end.

Definition click (target : ModalNode) : nat := bubble 3 target.

(** *** The application *)

(** The component, whether the enumeration is still pending, the value of
    [photos.length] the last render captured (the first-batch effect reads
    it from its closure) and the image selected for the modal. *)
Record App := {
  component : Component;
  enumerating : bool;
  rendered_photos_length : nat;
  selectedImage : option Value
}.

Definition with_component (f : Component → Component) (a : App) : App :=
  {| component := f (component a); enumerating := enumerating a;
     rendered_photos_length := rendered_photos_length a;
     selectedImage := selectedImage a |}.

Definition setSelectedImage (v : option Value) (a : App) : App :=
  {| component := component a; enumerating := enumerating a;
     rendered_photos_length := rendered_photos_length a;
     selectedImage := v |}.

Definition handleImageClick (imageUrl : option Value) : App → App :=
  setSelectedImage imageUrl.

Definition handleCloseModal : App → App := setSelectedImage None.

(** The effect that loads the first batch:
    [if (shuffledPhotoIds.length > 0 && photos.length === 0) fetchPhotoBatch()],
    all three read from the closure of the last render. *)
Definition firstBatchEffect (a : App) : App :=
  if (0 <? length (cl_shuffledPhotoIds (callback (component a))))
     && (rendered_photos_length a =? 0)
  then with_component (step Trigger) a
  else a.

Inductive AppEvent :=
  | Loader (e : Event)                 (* a render, a call or a settlement, as above *)
  | IdsReady (order : list string)     (* the enumeration resolves; [order] is what [shuffleArray] returned *)
  | IdsFailed                          (* the enumeration rejects *)
  | FirstBatchEffect                   (* the first-batch effect runs *)
  | Scroll (innerHeight scrollTop offsetHeight : Q)  (* a scroll event *)
  | ClickPhoto (i : nat)               (* a click on the [i]-th item of the grid *)
  | ClickModal (target : ModalNode).   (* a click on an element of the modal *)

Definition app_step (e : AppEvent) (a : App) : App :=
  match e with
  | Loader Render =>
      {| component := step Render (component a);
         enumerating := enumerating a;
         rendered_photos_length := length (photos (state (component a)));
         selectedImage := selectedImage a |}
  | Loader e => with_component (step e) a
  | IdsReady order =>
      if enumerating a then
        {| component := setLoading false (setShuffledPhotoIds order (component a));
           enumerating := false;
           rendered_photos_length := rendered_photos_length a;
           selectedImage := selectedImage a |}
      else a
  | IdsFailed =>
      {| component := component a; enumerating := false;
         rendered_photos_length := rendered_photos_length a;
         selectedImage := selectedImage a |}
  | FirstBatchEffect => firstBatchEffect a
  | Scroll innerHeight scrollTop offsetHeight =>
      with_component (handleScroll innerHeight scrollTop offsetHeight) a
  | ClickPhoto i =>
      match photos (state (component a)) !! i with
      | Some photo => handleImageClick (photo !! "url"%string) a
      | None => a
      end
  | ClickModal target =>
      match Modal (selectedImage a) with
      | Some _ => Nat.iter (click target) handleCloseModal a
      | None => a
      end
  end.

Fixpoint app_run (events : list AppEvent) (a : App) : App :=
  match events with
  | [] => a
  | e :: events' => app_run events' (app_step e a)
  end.

(** The application right after mounting. *)
Definition app_init : App :=
  {| component := mounted; enumerating := true;
     rendered_photos_length := 0; selectedImage := None |}.

(** *** What is rendered *)

(** [`${(photo.index % 3) * 0.15}s`], as a number of seconds, for an
    [index] that is a number; the arithmetic is exact. *)
Definition animationDelay (photo : Obj) : option Q :=
  match photo_index photo with
  | Some (VNum index) => Some (inject_Z (Z.rem index 3) * (15 # 100))%Q
  | _ => None
  end.

(** One [PhotoItem]: its React key, the attributes of its image and its
    animation delay. *)
Record Item := {
  item_key : option Value;
  item_src : option Value;
  item_alt : option Value;
  item_animationDelay : option Q
}.

Definition PhotoItem (photo : Obj) : Item :=
  {| item_key := photo_id photo;
     item_src := photo !! "url"%string;
     item_alt := photo !! "alt_description"%string;
     item_animationDelay := animationDelay photo |}.

(** What [App] returns: the grid, the two indicators and the modal. *)
Record View := {
  grid : list Item;
  loadingIndicator : bool;
  endOfGallery : bool;
  modal : option Value
}.

Definition App_view (a : App) : View :=
  let s := state (component a) in
  {| grid := PhotoItem <$> photos s;
     loadingIndicator := loading s;
     endOfGallery := allLoaded s && (0 <? length (photos s));
     modal := Modal (selectedImage a) |}.

(** *** Auxiliary definitions for the remaining properties *)

(** Results of [Math.random()] that make a shuffle of [n] elements draw
    [draw i] for position [i]: the draw made for position [i] is the lower
    end [draw i / (i + 1)] of the interval that selects [draw i]. *)
Definition draws_for (draw : nat → nat) (n : nat) : nat → Q :=
  λ k, Z.of_nat (draw (n - 1 - k)) # Pos.of_nat (n - k).

(** [n] rounds of a render, a trigger and the settlement of its batch. *)
Definition loads (remotes : list Remote) : list Event :=
  remotes ≫= λ remote, [Render; Trigger; Settle remote].

(** The invariant behind the origin of the records: every loaded record is
    identified by an id of the order, and so is every id requested or
    captured. *)
Definition from_order (ids : list string) (c : Component) : Prop :=
  (∀ p, p ∈ photos (state c) → ∃ id, id ∈ ids ∧ photo_id p = Some (VStr id)) ∧
  Forall (λ p, p_nextBatchIds p ⊆ ids) (inflight c) ∧
  cl_shuffledPhotoIds (callback c) ⊆ ids ∧
  shuffledPhotoIds (state c) = ids.

(** The invariant of a gallery loaded through rendered callbacks, from a
    cursor that stood at [start] when nothing was loaded: the records are
    those of the ids from [start] up to the cursor, in order and tagged
    with their positions; a call in flight has the window at the cursor;
    the exhaustion flag is set only with the cursor past the order. *)
Definition loaded_from (start : nat) (ids : list string) (c : Component) : Prop :=
  let cursor := currentIndex (state c) in
  shuffledPhotoIds (state c) = ids ∧
  start ≤ cursor ∧
  photo_id <$> photos (state c) = (Some ∘ VStr) <$> slice start cursor ids ∧
  photo_index <$> photos (state c) =
    (λ k, Some (VNum (Z.of_nat k))) <$> seq start (length (photos (state c))) ∧
  Forall (λ p, p_currentIndex p = cursor ∧
               p_nextBatchIds p = slice cursor (cursor + BATCH_SIZE) ids)
         (inflight c) ∧
  (allLoaded (state c) = true → length ids ≤ cursor).

(** A remote answer on which every read resolves. *)
Definition resolves (remote : Remote) : Prop := ∀ id, is_Some (remote id).

(** The lock is held exactly while a call is in flight, and then by one
    call. *)
Definition lock_inflight (c : Component) : Prop :=
  (loadingRef (state c) = false ∧ inflight c = []) ∨
  (loadingRef (state c) = true ∧ ∃ p, inflight c = [p]).

(** The invariant of the application: the lock follows the calls in
    flight; while the enumeration is pending no order is stored or
    captured; once the exhaustion flag is set the indicator is off, the
    lock is free, the enumeration is over and the callback in the handlers
    cannot fan out. *)
Definition consistent (enumerating : bool) (c : Component) : Prop :=
  lock_inflight c ∧
  (enumerating = true →
   shuffledPhotoIds (state c) = [] ∧ cl_shuffledPhotoIds (callback c) = []) ∧
  (allLoaded (state c) = true →
   loading (state c) = false ∧ loadingRef (state c) = false ∧
   enumerating = false ∧
   (cl_allLoaded (callback c) = true ∨ exhausted (callback c) = true)).

(** A burst of scroll events, one per viewport geometry
    [(innerHeight, scrollTop, offsetHeight)]. *)
Definition scrolls (geometries : list (Q * Q * Q)) : list AppEvent :=
  (λ g, Scroll g.1.1 g.1.2 g.2) <$> geometries.

(** *** Sessions *)

(** The loader events an application event amounts to: a scroll event or
    the first-batch effect is a call when its test passes; clicks and the
    end of the enumeration are none. *)
Definition loader_events (e : AppEvent) (a : App) : list Event :=
  match e with
  | Loader e => [e]
  | FirstBatchEffect =>
      if (0 <? length (cl_shuffledPhotoIds (callback (component a))))
         && (rendered_photos_length a =? 0)
      then [Trigger] else []
  | Scroll innerHeight scrollTop offsetHeight =>
      if near_bottom innerHeight scrollTop offsetHeight then [Trigger] else []
  | IdsReady _ | IdsFailed | ClickPhoto _ | ClickModal _ => []
  end.

Fixpoint loader_trace (events : list AppEvent) (a : App) : list Event :=
  match events with
  | [] => []
  | e :: events' => loader_events e a ++ loader_trace events' (app_step e a)
  end.

(** Whether an application event completes a batch load successfully. *)
Definition app_succeeds (e : AppEvent) (a : App) : bool :=
  match e with
  | Loader e => succeeds e (component a)
  | _ => false
  end.

(** The number of successful batch loads in a session. *)
Fixpoint app_successes (events : list AppEvent) (a : App) : nat :=
  match events with
  | [] => 0
  | e :: events' =>
      (if app_succeeds e a then 1 else 0) + app_successes events' (app_step e a)
  end.

(** The conditions of the data model on a session: the order the
    enumeration stores has no repeated id, and the documents fetched carry
    no [id] field of their own. *)
Definition session_keyed (e : AppEvent) : Prop :=
  match e with
  | Loader e => keyed_by_document e
  | IdsReady order => NoDup order
  | _ => True
  end.

(** The position loading starts from when the order is stored: the cursor
    the calls made until then have reached or, for one still in flight,
    will reach. *)
Definition start_position (c : Component) : nat :=
  currentIndex (state c) + BATCH_SIZE * length (inflight c).

(** The invariant behind the bound on the cursor in a session: the cursor,
    advanced by the window of the call in flight, stays within [bound]. *)
Definition cursor_within (bound : nat) (ids : list string) (c : Component) : Prop :=
  shuffledPhotoIds (state c) = ids ∧
  (BATCH_SIZE | currentIndex (state c)) ∧
  start_position c ≤ bound.

(** The invariant of a gallery loaded from position [start]: either the
    call made before the order was stored is still in flight, with its
    empty window and nothing loaded, or the records are those of the ids
    from [start] up to the cursor. *)
Definition loaded_after (start : nat) (ids : list string) (c : Component) : Prop :=
  (shuffledPhotoIds (state c) = ids ∧ photos (state c) = [] ∧
   allLoaded (state c) = false ∧
   currentIndex (state c) + BATCH_SIZE = start ∧
   ∃ p, inflight c = [p] ∧ p_nextBatchIds p = []) ∨
  loaded_from start ids c.

(** * Properties of the shuffler *)

Section random_index.
Local Open Scope Q_scope.

Lemma floor_bounds (x : Q) (j : Z) :
  Qfloor x = j ↔ inject_Z j <= x ∧ x < inject_Z (j + 1).
Proof.
  split.
  - intros <-. split; [apply Qfloor_le | apply Qlt_floor].
  - intros [Hlo Hhi].
    pose proof (Qfloor_le x) as Hfl. pose proof (Qlt_floor x) as Hfu.
    assert (Qfloor x < j + 1)%Z.
    { rewrite Zlt_Qlt. eapply Qle_lt_trans; eauto. }
    assert (j < Qfloor x + 1)%Z.
    { rewrite Zlt_Qlt. eapply Qle_lt_trans; eauto. }
    lia.
Qed.

Lemma scaled_draw_bounds (r : Q) (n : nat) :
  unit_interval r → (0 < n)%nat →
  0 <= r * inject_Z (Z.of_nat n) ∧
  r * inject_Z (Z.of_nat n) < inject_Z (Z.of_nat n).
Proof.
  intros [Hr0 Hr1] Hn.
  assert (0 < inject_Z (Z.of_nat n)) as Hpos.
  { change 0 with (inject_Z 0). rewrite <- Zlt_Qlt. lia. }
  split.
  - apply Qmult_le_0_compat; [done | by apply Qlt_le_weak].
  - rewrite <- (Qmult_1_l (inject_Z (Z.of_nat n))) at 2.
    by apply Qmult_lt_compat_r.
Qed.

Lemma floor_scaled_draw (r : Q) (n : nat) :
  unit_interval r → (0 < n)%nat →
  (0 <= Qfloor (r * inject_Z (Z.of_nat n)) < Z.of_nat n)%Z.
Proof.
  intros Hr Hn. destruct (scaled_draw_bounds r n Hr Hn) as [Hlo Hhi].
  split.
  - rewrite <- (Qfloor_Z 0). by apply Qfloor_resp_le.
  - rewrite Zlt_Qlt. eapply Qle_lt_trans; [apply Qfloor_le | done].
Qed.

(** The index drawn for a non-empty prefix lies inside it. *)
Lemma randomIndex_lt (r : Q) (n : nat) :
  unit_interval r → (0 < n)%nat → (randomIndex r n < n)%nat.
Proof.
  intros Hr Hn. unfold randomIndex.
  pose proof (floor_scaled_draw r n Hr Hn). lia.
Qed.

(** Index [j] is drawn exactly when the draw falls in the [j]-th of [n]
    intervals of length [1/n] that partition [0, 1). *)
Lemma randomIndex_interval (r : Q) (n j : nat) :
  unit_interval r → (0 < n)%nat →
  randomIndex r n = j ↔
  inject_Z (Z.of_nat j) / inject_Z (Z.of_nat n) <= r ∧
  r < inject_Z (Z.of_nat j + 1) / inject_Z (Z.of_nat n).
Proof.
  intros Hr Hn. unfold randomIndex.
  pose proof (floor_scaled_draw r n Hr Hn) as Hfl.
  assert (0 < inject_Z (Z.of_nat n)) as Hpos.
  { change 0 with (inject_Z 0). rewrite <- Zlt_Qlt. lia. }
  transitivity (Qfloor (r * inject_Z (Z.of_nat n)) = Z.of_nat j); [lia|].
  rewrite floor_bounds. split; intros [Hlo Hhi]; split.
  - by apply Qle_shift_div_r.
  - by apply Qlt_shift_div_l.
  - apply (Qmult_le_r _ _ (/ inject_Z (Z.of_nat n))); [by apply Qinv_lt_0_compat|].
    rewrite <- Qmult_assoc, Qmult_inv_r, Qmult_1_r; [done|].
    intros Heq. rewrite Heq in Hpos. by apply Qlt_irrefl in Hpos.
  - apply (Qmult_lt_r _ _ (/ inject_Z (Z.of_nat n))); [by apply Qinv_lt_0_compat|].
    rewrite <- Qmult_assoc, Qmult_inv_r, Qmult_1_r; [done|].
    intros Heq. rewrite Heq in Hpos. by apply Qlt_irrefl in Hpos.
Qed.
End random_index.

Section shuffle_facts.
Context {A : Type}.
Implicit Types (l : list A) (i j : nat).

Lemma get_of_list l i : JsArray.get (JsArray.of_list l) i = l !! i.
Proof.
  unfold JsArray.get, JsArray.of_list. rewrite list_lookup_fmap.
  by destruct (l !! i).
Qed.

Lemma set_of_list l i x :
  i < length l →
  JsArray.set i (Some x) (JsArray.of_list l) = JsArray.of_list (<[i := x]> l).
Proof.
  intros Hi. unfold JsArray.set, JsArray.of_list.
  rewrite length_fmap. case_decide; [|lia].
  by rewrite list_fmap_insert.
Qed.

(** On an array without holes and inside its bounds, the destructuring
    assignment exchanges two elements. *)
Lemma swap_of_list l i j :
  i < length l → j < length l →
  JsArray.swap i j (JsArray.of_list l) = JsArray.of_list (swap_elements i j l).
Proof.
  intros Hi Hj. unfold JsArray.swap, swap_elements.
  rewrite !get_of_list.
  destruct (lookup_lt_is_Some_2 l i Hi) as [x ->].
  destruct (lookup_lt_is_Some_2 l j Hj) as [y ->].
  rewrite set_of_list by done.
  rewrite set_of_list by (by rewrite length_insert).
  done.
Qed.

Lemma swap_elements_length l i j :
  length (swap_elements i j l) = length l.
Proof.
  unfold swap_elements.
  destruct (l !! i), (l !! j); by rewrite ?length_insert.
Qed.

Lemma swap_elements_same l i : swap_elements i i l = l.
Proof.
  unfold swap_elements. destruct (l !! i) as [x|] eqn:Hx; [|done].
  rewrite list_insert_insert_eq. by apply list_insert_id.
Qed.

Lemma swap_elements_perm l i j : swap_elements i j l ≡ₚ l.
Proof.
  unfold swap_elements.
  destruct (l !! i) as [x|] eqn:Hx; [|done].
  destruct (l !! j) as [y|] eqn:Hy; [|done].
  apply Permutation_inj. split; [by rewrite !length_insert|].
  exists (λ k, if decide (k = j) then i else if decide (k = i) then j else k).
  split.
  - intros a b. repeat case_decide; intros; subst; congruence.
  - intros k. pose proof (lookup_lt_Some _ _ _ Hx). pose proof (lookup_lt_Some _ _ _ Hy).
    repeat case_decide; subst.
    + rewrite list_lookup_insert_eq by (by rewrite length_insert). done.
    + rewrite list_lookup_insert_ne by done.
      rewrite list_lookup_insert_eq by done. done.
    + by rewrite !list_lookup_insert_ne by done.
Qed.

Lemma fisher_yates_down_length draw i l :
  length (fisher_yates_down draw i l) = length l.
Proof.
  revert l. induction i as [|i IH]; intros l; simpl; [done|].
  by rewrite IH, swap_elements_length.
Qed.

Lemma fisher_yates_down_perm draw i l : fisher_yates_down draw i l ≡ₚ l.
Proof.
  revert l. induction i as [|i IH]; intros l; simpl; [done|].
  by rewrite IH, swap_elements_perm.
Qed.

Section loop.
Variable random : nat → Q.
Hypothesis random_range : ∀ k, unit_interval (random k).

Lemma drawn_le n i : drawn random n i ≤ i.
Proof.
  unfold drawn.
  pose proof (randomIndex_lt (random (n - 1 - i)) (i + 1)
                (random_range _) ltac:(lia)).
  lia.
Qed.

(** The loop at [currentIndex = i + 1] runs the specified iterations
    [i, ..., 1] and then one more, for index [0], which exchanges the
    first element with itself. *)
Lemma shuffle_loop_fisher_yates n i calls l :
  i < length l → calls + i = n - 1 →
  shuffle_loop random calls (S i) (JsArray.of_list l) =
  JsArray.of_list (fisher_yates_down (drawn random n) i l).
Proof.
  revert calls l. induction i as [|i IH]; intros calls l Hi Hcalls.
  - cbn [shuffle_loop fisher_yates_down].
    pose proof (randomIndex_lt (random calls) 1 (random_range _) ltac:(lia)).
    replace (randomIndex (random calls) 1) with 0 by lia.
    rewrite swap_of_list by done. by rewrite swap_elements_same.
  - cbn [shuffle_loop fisher_yates_down].
    pose proof (randomIndex_lt (random calls) (S (S i)) (random_range _)
                  ltac:(lia)) as Hlt.
    assert (drawn random n (S i) = randomIndex (random calls) (S (S i))) as ->.
    { unfold drawn. f_equal; [f_equal|]; lia. }
    rewrite swap_of_list by lia.
    apply IH; [rewrite swap_elements_length|]; lia.
Qed.

Lemma shuffleArray_fisher_yates l :
  shuffleArray random (JsArray.of_list l) =
  JsArray.of_list (fisher_yates (drawn random (length l)) l).
Proof.
  unfold shuffleArray, fisher_yates, JsArray.of_list at 1.
  rewrite length_fmap.
  destruct l as [|x l]; [done|].
  cbn [length]. replace (S (length l) - 1) with (length l) by lia.
  apply shuffle_loop_fisher_yates; simpl; lia.
Qed.
End loop.
End shuffle_facts.

(** C6.  For every input list, of any length (the empty list included), run
    against any sequence of [Math.random()] results in [0, 1), the array
    [shuffleArray] returns has no holes and is a permutation of the input:
    the same elements with the same multiplicities, and the same length. *)
Theorem shuffleArray_permutation {A} (random : nat → Q) (ids : list A) :
  (∀ k, unit_interval (random k)) →
  ∃ shuffled,
    shuffleArray random (JsArray.of_list ids) = JsArray.of_list shuffled ∧
    shuffled ≡ₚ ids ∧
    length shuffled = length ids.
Proof.
  intros Hrange. exists (fisher_yates (drawn random (length ids)) ids).
  split; [by apply shuffleArray_fisher_yates|].
  unfold fisher_yates.
  split; [apply fisher_yates_down_perm | apply fisher_yates_down_length].
Qed.

Lemma shuffleArray_permutation_witness :
  (∀ k : nat, unit_interval (1 # 2)) ∧
  ∃ shuffled,
    shuffleArray (λ _, 1 # 2)
      (JsArray.of_list ["a"; "b"; "c"; "d"]%string) = JsArray.of_list shuffled ∧
    shuffled ≡ₚ ["a"; "b"; "c"; "d"]%string ∧
    length shuffled = 4.
Proof.
  assert (∀ k : nat, unit_interval (1 # 2)) as Hrange.
  { intros _. split; [discriminate | reflexivity]. }
  split; [exact Hrange|].
  exact (shuffleArray_permutation (λ _, 1 # 2) ["a"; "b"; "c"; "d"]%string Hrange).
Defined.

(** With the product [Math.random() * currentIndex] taken exactly,
    [shuffleArray] computes the Fisher–Yates shuffle as specified: on
    every input, its result is the one obtained by going through the
    positions [i] from [length - 1] down to [1] and exchanging the elements
    at [i] and [j], where the [j] it draws for position [i] lies in
    [[0, i]] and takes each of these [i + 1] values on an interval of
    [Math.random()] results of the same length [1 / (i + 1)].  (The source
    loop runs one more iteration, for position [0], which exchanges the
    first element with itself.) *)
Theorem shuffleArray_is_fisher_yates {A} (random : nat → Q) (array : list A) :
  (∀ k, unit_interval (random k)) →
  let draw := drawn random (length array) in
  shuffleArray random (JsArray.of_list array) =
    JsArray.of_list (fisher_yates draw array) ∧
  (∀ i, draw i ≤ i) ∧
  (∀ i j, draw i = j ↔
     (inject_Z (Z.of_nat j) / inject_Z (Z.of_nat (i + 1)%nat)
        <= random (length array - 1 - i)%nat)%Q ∧
     (random (length array - 1 - i)%nat
        < inject_Z (Z.of_nat j + 1) / inject_Z (Z.of_nat (i + 1)%nat))%Q).
Proof.
  intros Hrange draw. split; [by apply shuffleArray_fisher_yates|].
  split; [intros i; by apply drawn_le|].
  intros i j. unfold draw, drawn.
  apply randomIndex_interval; [done | lia].
Qed.

Lemma shuffleArray_is_fisher_yates_witness :
  (∀ k : nat, unit_interval (Z.of_nat k # Pos.of_nat (k + 1))) ∧
  shuffleArray (λ k, Z.of_nat k # Pos.of_nat (k + 1))
    (JsArray.of_list [10; 20; 30; 40; 50]) =
  JsArray.of_list
    (fisher_yates (drawn (λ k, Z.of_nat k # Pos.of_nat (k + 1)) 5)
       [10; 20; 30; 40; 50]).
Proof.
  assert (∀ k : nat, unit_interval (Z.of_nat k # Pos.of_nat (k + 1))) as Hrange.
  { intros k. unfold unit_interval, Qle, Qlt. simpl. lia. }
  split; [exact Hrange|].
  exact (proj1 (shuffleArray_is_fisher_yates
                  (λ k, Z.of_nat k # Pos.of_nat (k + 1))
                  [10; 20; 30; 40; 50] Hrange)).
Defined.

(** * Properties of the batch loader *)

Ltac unfold_loader :=
  unfold fetchPhotoBatch, fetchPhotoBatch_resume, finally, await_all,
    setPhotos, setCurrentIndex, setLoading, setAllLoaded, set_loadingRef,
    console_error, with_state in *.

(** ** What a call leaves alone *)

Lemma fetchPhotoBatch_frame cl c :
  let c' := fetchPhotoBatch cl c in
  photos (state c') = photos (state c) ∧
  shuffledPhotoIds (state c') = shuffledPhotoIds (state c) ∧
  currentIndex (state c') = currentIndex (state c) ∧
  errors c' = errors c ∧
  callback c' = callback c.
Proof.
  unfold fetchPhotoBatch.
  destruct (loadingRef (state c) || cl_allLoaded cl); [done|].
  destruct (exhausted cl); repeat split; reflexivity.
Qed.

Lemma fetchPhotoBatch_resume_frame p remote c :
  let c' := fetchPhotoBatch_resume p remote c in
  shuffledPhotoIds (state c') = shuffledPhotoIds (state c) ∧
  allLoaded (state c') = allLoaded (state c) ∧
  loadingRef (state c') = false ∧
  loading (state c') = false ∧
  inflight c' = inflight c ∧
  fanouts c' = fanouts c ∧
  callback c' = callback c.
Proof.
  unfold fetchPhotoBatch_resume.
  destruct (Promise_all (getDoc remote <$> p_nextBatchIds p));
    repeat split; reflexivity.
Qed.

Lemma step_shuffledPhotoIds e c :
  shuffledPhotoIds (state (step e c)) = shuffledPhotoIds (state c).
Proof.
  destruct e as [| |remote]; simpl; [done| |].
  - apply fetchPhotoBatch_frame.
  - destruct (inflight c) as [|p rest]; [done|].
    by rewrite (proj1 (fetchPhotoBatch_resume_frame _ _ _)).
Qed.

(** ** The outcomes of a call *)

Lemma fetchPhotoBatch_guarded cl c :
  loadingRef (state c) = true ∨ cl_allLoaded cl = true →
  fetchPhotoBatch cl c = c.
Proof.
  intros [H|H]; unfold fetchPhotoBatch; rewrite H; [done|].
  by rewrite orb_true_r.
Qed.

Lemma fetchPhotoBatch_exhausted cl c :
  loadingRef (state c) = false → cl_allLoaded cl = false →
  exhausted cl = true →
  fetchPhotoBatch cl c = finally (setAllLoaded true c).
Proof.
  intros Hlock Hflag Hex. unfold fetchPhotoBatch.
  rewrite Hlock, Hflag, Hex. done.
Qed.

Lemma fetchPhotoBatch_fans_out cl c :
  loadingRef (state c) = false → cl_allLoaded cl = false →
  exhausted cl = false →
  fetchPhotoBatch cl c =
  await_all {| p_nextBatchIds := nextBatchIds cl;
               p_currentIndex := cl_currentIndex cl |}
            (setLoading true (set_loadingRef true c)).
Proof.
  intros Hlock Hflag Hex. unfold fetchPhotoBatch.
  by rewrite Hlock, Hflag, Hex.
Qed.

Lemma exhausted_spec cl :
  exhausted cl = true ↔ nextBatchIds cl = [] ∧ cl_shuffledPhotoIds cl ≠ [].
Proof.
  unfold exhausted. rewrite andb_true_iff, Nat.eqb_eq, Nat.ltb_lt.
  rewrite length_zero_iff_nil.
  destruct (cl_shuffledPhotoIds cl); simpl; split; intros [??]; split;
    try done; lia.
Qed.

Lemma nextBatchIds_lookup cl i :
  i < length (nextBatchIds cl) →
  nextBatchIds cl !! i = cl_shuffledPhotoIds cl !! (cl_currentIndex cl + i).
Proof.
  unfold nextBatchIds, slice. intros Hi.
  rewrite length_take in Hi.
  rewrite lookup_take_lt by lia. by rewrite lookup_drop.
Qed.

Lemma nextBatchIds_nonempty cl :
  nextBatchIds cl ≠ [] ↔ cl_currentIndex cl < length (cl_shuffledPhotoIds cl).
Proof.
  unfold nextBatchIds, slice.
  rewrite <- length_zero_iff_nil, length_take, length_drop.
  unfold BATCH_SIZE. lia.
Qed.

(** ** Invariants of the transition system *)

Lemma single_flight_step e c : single_flight c → single_flight (step e c).
Proof.
  intros Hsf. destruct e as [| |remote]; simpl.
  - exact Hsf.
  - destruct Hsf as [(Hlock & Hload & Hin)|(Hlock & Hload & Hin)].
    + unfold fetchPhotoBatch. rewrite Hlock. simpl.
      destruct (cl_allLoaded (callback c)); [by left|].
      destruct (exhausted (callback c)).
      * by left.
      * right. unfold_loader. simpl. rewrite Hin. eauto.
    + rewrite fetchPhotoBatch_guarded by auto. by right.
  - destruct Hsf as [(Hlock & Hload & Hin)|(Hlock & Hload & [p Hin])].
    + rewrite Hin. by left.
    + rewrite Hin. left.
      pose proof (fetchPhotoBatch_resume_frame p remote
        {| state := state c; inflight := []; fanouts := fanouts c;
           errors := errors c; callback := callback c |}) as Hfr.
      simpl in Hfr. destruct Hfr as (_ & _ & Hl & Hld & Hi & _). done.
Qed.

Lemma exhaustion_seen_step e c :
  single_flight c → exhaustion_seen c → exhaustion_seen (step e c).
Proof.
  intros Hsf Hseen. destruct e as [| |remote]; simpl.
  - intros Hflag. destruct (Hseen Hflag) as [Hin _]. simpl. auto.
  - unfold fetchPhotoBatch.
    destruct (loadingRef (state c)) eqn:Hlock; [done|]. simpl.
    destruct (cl_allLoaded (callback c)) eqn:Hcl; [done|].
    destruct (exhausted (callback c)) eqn:Hex.
    + intros _. unfold_loader. simpl.
      destruct Hsf as [(_ & _ & Hin)|(Hlock' & _)]; [auto|congruence].
    + intros Hflag. unfold_loader. simpl in *.
      destruct (Hseen Hflag) as [_ [?|?]]; congruence.
  - destruct (inflight c) as [|p rest] eqn:Hin; [done|].
    intros Hflag.
    rewrite (proj1 (proj2 (fetchPhotoBatch_resume_frame _ _ _))) in Hflag.
    simpl in Hflag. destruct (Hseen Hflag) as [Hnil _]. congruence.
Qed.

Lemma init_single_flight ids : single_flight (init ids).
Proof. by left. Qed.

Lemma init_exhaustion_seen ids : exhaustion_seen (init ids).
Proof. intros H. discriminate H. Qed.

Lemma run_app events1 events2 c :
  run (events1 ++ events2) c = run events2 (run events1 c).
Proof. revert c. induction events1 as [|e events1 IH]; intros c; simpl; auto. Qed.

Lemma run_invariants events c :
  single_flight c → exhaustion_seen c →
  single_flight (run events c) ∧ exhaustion_seen (run events c).
Proof.
  revert c. induction events as [|e events IH]; intros c Hsf Hseen; [done|].
  simpl. apply IH; [by apply single_flight_step | by apply exhaustion_seen_step].
Qed.

Lemma trigger_after_exhaustion c :
  single_flight c → exhaustion_seen c →
  allLoaded (state c) = true → step Trigger c = c.
Proof.
  intros Hsf Hseen Hflag. simpl.
  destruct (Hseen Hflag) as [Hin [Hcl|Hex]].
  - apply fetchPhotoBatch_guarded. by right.
  - destruct Hsf as [(Hlock & Hload & _)|(_ & _ & [p Hp])]; [|congruence].
    destruct (cl_allLoaded (callback c)) eqn:Hcl.
    + apply fetchPhotoBatch_guarded. by right.
    + rewrite fetchPhotoBatch_exhausted by done.
      destruct c as [[] ? ? ? ?]. unfold_loader. simpl in *. congruence.
Qed.

(** C1.  In every state of the component, a call that finds the lock held,
    or whose callback sees the exhaustion flag set, returns the component
    exactly as it found it.  A call that passes the guard and fans out adds
    one suspended call and one fan-out and holds the lock, so that a second
    call issued before the first settles, through whatever callback, changes
    nothing: one fan-out is in flight, not two.  Along every run from the
    initial component at most one call is in flight, and once the flag is
    set in the state a trigger leaves the component unchanged. *)
Theorem fetchPhotoBatch_single_flight (c : Component) (cl cl' : Closure) :
  (loadingRef (state c) = true ∨ cl_allLoaded cl = true →
   fetchPhotoBatch cl c = c) ∧
  (loadingRef (state c) = false → cl_allLoaded cl = false →
   exhausted cl = false →
   let c1 := fetchPhotoBatch cl c in
   inflight c1 = inflight c ++ [{| p_nextBatchIds := nextBatchIds cl;
                                   p_currentIndex := cl_currentIndex cl |}] ∧
   fanouts c1 = fanouts c ++ [nextBatchIds cl] ∧
   loadingRef (state c1) = true ∧
   fetchPhotoBatch cl' c1 = c1) ∧
  (∀ ids events, c = run events (init ids) →
   length (inflight c) ≤ 1 ∧
   (loadingRef (state c) = true ∨ allLoaded (state c) = true →
    step Trigger c = c)).
Proof.
  split; [apply fetchPhotoBatch_guarded|]. split.
  - intros Hlock Hflag Hex c1. subst c1.
    rewrite fetchPhotoBatch_fans_out by done.
    by repeat split.
  - intros ids events ->.
    destruct (run_invariants events (init ids)
                (init_single_flight ids) (init_exhaustion_seen ids))
      as [Hsf Hseen].
    split.
    + destruct Hsf as [(_ & _ & ->)|(_ & _ & [p ->])]; simpl; lia.
    + intros [Hlock|Hflag].
      * apply fetchPhotoBatch_guarded. by left.
      * by apply trigger_after_exhaustion.
Qed.

Lemma fetchPhotoBatch_single_flight_witness :
  let ids := ["p1"; "p2"; "p3"]%string in
  let c1 := fetchPhotoBatch (render (init_state ids)) (init ids) in
  let c2 := fetchPhotoBatch (render (init_state ids)) c1 in
  fanouts c1 = [ids] ∧ loadingRef (state c1) = true ∧ c2 = c1.
Proof.
  intros ids c1 c2.
  destruct (fetchPhotoBatch_single_flight (init ids)
              (render (init_state ids)) (render (init_state ids)))
    as (_ & Htwice & _).
  destruct (Htwice eq_refl eq_refl eq_refl) as (_ & Hfan & Hlock & Hnoop).
  split; [exact Hfan | split; [exact Hlock | exact Hnoop]].
Defined.

(** ** Record ids *)

Lemma newPhoto_index currentIndex i d :
  photo_index (newPhoto currentIndex i d) =
  Some (VNum (Z.of_nat (currentIndex + i))).
Proof. unfold photo_index, newPhoto. apply lookup_insert_eq. Qed.

Lemma newPhoto_id currentIndex i d :
  photo_id (newPhoto currentIndex i d) =
  match d_data d ≫= (.!! "id"%string) with
  | Some v => Some v
  | None => Some (VStr (d_id d))
  end.
Proof.
  unfold photo_id, newPhoto, spread.
  rewrite lookup_insert_ne by done. rewrite lookup_union.
  rewrite lookup_insert_eq.
  destruct (d_data d) as [data|]; simpl.
  - by destruct (data !! "id"%string).
  - by rewrite lookup_empty.
Qed.

Lemma Promise_all_getDoc remote ids photoDocs :
  Promise_all (getDoc remote <$> ids) = Some photoDocs →
  Forall2 (λ id d, d_id d = id ∧ remote id = Some (d_data d)) ids photoDocs.
Proof.
  unfold Promise_all. intros Hall%mapM_Some.
  apply Forall2_fmap_l in Hall.
  eapply Forall2_impl; [exact Hall|].
  intros id d. unfold getDoc. simpl.
  destruct (remote id) as [data|]; simpl; [|done].
  by intros [= <-].
Qed.

Lemma Promise_all_rejects remote ids id :
  id ∈ ids → remote id = None →
  Promise_all (getDoc remote <$> ids) = None.
Proof.
  intros Hin Hrej.
  destruct (Promise_all (getDoc remote <$> ids)) as [photoDocs|] eqn:Hall;
    [|done].
  apply Promise_all_getDoc in Hall.
  apply list_elem_of_lookup in Hin as [i Hi].
  destruct (Forall2_lookup_l _ _ _ _ _ Hall Hi) as (d & _ & _ & Hd).
  congruence.
Qed.

Lemma newPhotos_ids remote currentIndex ids photoDocs :
  keyed_by_document (Settle remote) →
  Promise_all (getDoc remote <$> ids) = Some photoDocs →
  photo_id <$> newPhotos currentIndex photoDocs = (Some ∘ VStr) <$> ids.
Proof.
  intros Hkeyed Hall%Promise_all_getDoc.
  apply list_eq. intros i. unfold newPhotos.
  rewrite !list_lookup_fmap, list_lookup_imap.
  destruct (ids !! i) as [id|] eqn:Hid; simpl.
  - destruct (Forall2_lookup_l _ _ _ _ _ Hall Hid) as (d & -> & Hdid & Hd).
    simpl. rewrite newPhoto_id, Hdid. f_equal.
    destruct (d_data d) as [data|] eqn:Hdata; simpl; [|done].
    by rewrite (Hkeyed id data Hd).
  - destruct (photoDocs !! i) as [d|] eqn:Hd; [|done].
    destruct (Forall2_lookup_r _ _ _ _ _ Hall Hd) as (id & Hid' & _).
    congruence.
Qed.

(** The merge keeps the ids of the loaded records pairwise distinct,
    provided those of the new records are. *)
Lemma mergePhotos_NoDup newPhotos prevPhotos :
  NoDup (photo_id <$> prevPhotos) → NoDup (photo_id <$> newPhotos) →
  NoDup (photo_id <$> mergePhotos newPhotos prevPhotos).
Proof.
  intros Hprev Hnew. unfold mergePhotos. rewrite fmap_app.
  apply NoDup_app. split; [done|]. split.
  - intros x Hx (p & -> & Hp%list_elem_of_filter)%list_elem_of_fmap.
    destruct Hp as [Hfresh _]. apply Hfresh.
    by apply elem_of_list_to_set.
  - eapply sublist_NoDup; [exact Hnew|].
    apply fmap_sublist, sublist_filter.
Qed.

Lemma nextBatchIds_NoDup cl :
  NoDup (cl_shuffledPhotoIds cl) → NoDup (nextBatchIds cl).
Proof.
  intros Hnd. unfold nextBatchIds, slice.
  eapply sublist_NoDup; [exact Hnd|].
  etrans; [apply sublist_take | apply sublist_drop].
Qed.

Lemma duplicate_free_step e c :
  keyed_by_document e → duplicate_free c → duplicate_free (step e c).
Proof.
  intros Hkeyed Hdf. pose proof Hdf as (Hphotos & Hflight & Hcb & Hids).
  destruct e as [| |remote]; simpl.
  - done.
  - unfold fetchPhotoBatch.
    destruct (loadingRef (state c) || cl_allLoaded (callback c)); [done|].
    destruct (exhausted (callback c)); [done|].
    unfold_loader. unfold duplicate_free. simpl.
    repeat split; try done.
    apply Forall_app. split; [done|].
    apply Forall_singleton. simpl. by apply nextBatchIds_NoDup.
  - destruct (inflight c) as [|p rest] eqn:Hin; [done|].
    apply Forall_cons in Hflight as [Hp Hrest].
    clear Hdf. unfold fetchPhotoBatch_resume.
    destruct (Promise_all (getDoc remote <$> p_nextBatchIds p))
      as [photoDocs|] eqn:Hall.
    + unfold_loader. unfold duplicate_free. simpl.
      repeat split; try done.
      apply mergePhotos_NoDup; [done|].
      rewrite (newPhotos_ids remote _ _ _ Hkeyed Hall).
      apply NoDup_fmap_2; [|done]. by intros ?? [=].
    + done.
Qed.

(** The loader alone, started with the order stored: along every run —
    whatever the interleaving of renders, triggers and settlements, the
    batches succeeding, failing or finding the order exhausted — no two
    records of [photos] have the same id, for an order without repeated
    ids and documents identified by their key (no [id] field of their own
    among the fetched fields). *)
Theorem photos_ids_unique (ids : list string) (events : list Event) :
  NoDup ids → Forall keyed_by_document events →
  NoDup (photo_id <$> photos (state (run events (init ids)))).
Proof.
  intros Hids Hkeyed.
  assert (duplicate_free (init ids)) as Hinit.
  { unfold duplicate_free. simpl. repeat split; try done; constructor. }
  revert Hinit. generalize (init ids) as c.
  induction Hkeyed as [|e events He _ IH]; intros c Hc; [apply Hc|].
  simpl. apply IH. by apply duplicate_free_step.
Qed.

Lemma photos_ids_unique_witness :
  let ids := ["a"; "b"]%string in
  let remote : Remote := λ _, Some (Some {["url"%string := VStr "u"]}) in
  let events := [Trigger; Settle remote; Trigger; Settle remote] in
  NoDup ids ∧ Forall keyed_by_document events ∧
  NoDup (photo_id <$> photos (state (run events (init ids)))).
Proof.
  intros ids remote events.
  assert (NoDup ids) as Hids.
  { apply (bool_decide_unpack _). vm_compute. reflexivity. }
  assert (Forall keyed_by_document events) as Hkeyed.
  { repeat constructor; intros id data [= <-]; vm_compute; reflexivity. }
  split; [exact Hids|]. split; [exact Hkeyed|].
  exact (photos_ids_unique ids events Hids Hkeyed).
Defined.

(** ** The cursor *)

Lemma step_currentIndex e c :
  currentIndex (state (step e c)) =
  currentIndex (state c) + (if succeeds e c then BATCH_SIZE else 0).
Proof.
  destruct e as [| |remote]; simpl.
  - lia.
  - rewrite (proj1 (proj2 (proj2 (fetchPhotoBatch_frame _ _)))). lia.
  - unfold succeeds. destruct (inflight c) as [|p rest]; [lia|].
    unfold fetchPhotoBatch_resume.
    destruct (Promise_all (getDoc remote <$> p_nextBatchIds p)) eqn:Hall.
    + rewrite bool_decide_eq_true_2 by eauto. done.
    + rewrite bool_decide_eq_false_2 by (by intros [??]). simpl. lia.
Qed.

Lemma run_currentIndex events c :
  currentIndex (state (run events c)) =
  currentIndex (state c) + BATCH_SIZE * successes events c.
Proof.
  revert c. induction events as [|e events IH]; intros c;
    cbn [run successes]; [lia|].
  rewrite IH, step_currentIndex. unfold BATCH_SIZE.
  destruct (succeeds e c); lia.
Qed.

Lemma next_window_within_cap N cursor :
  (BATCH_SIZE | cursor) → cursor < N → cursor + BATCH_SIZE ≤ cursor_cap N.
Proof.
  intros [k ->] Hlt. unfold cursor_cap, BATCH_SIZE in *.
  assert (k + 1 ≤ (N + 12 - 1) / 12) as Hk.
  { apply Nat.div_le_lower_bound; lia. }
  nia.
Qed.

Lemma within_cap_step ids e c :
  ids ≠ [] → (e = Trigger → callback c = render (state c)) →
  single_flight c → within_cap ids c → within_cap ids (step e c).
Proof.
  intros Hne Hfresh Hsf (Hids & Hdiv & Hcap & Hin).
  unfold within_cap. rewrite step_shuffledPhotoIds, step_currentIndex.
  split; [done|].
  destruct e as [| |remote]; simpl.
  - rewrite Nat.add_0_r. done.
  - rewrite Nat.add_0_r. split; [done|]. split; [done|].
    specialize (Hfresh eq_refl). rewrite Hfresh.
    unfold fetchPhotoBatch. simpl.
    destruct (loadingRef (state c) || allLoaded (state c)); [done|].
    destruct (exhausted (render (state c))) eqn:Hex; [done|].
    intros _. subst ids.
    apply (nextBatchIds_nonempty (render (state c))).
    intros Hnil. apply not_true_iff_false in Hex. apply Hex.
    apply exhausted_spec. done.
  - unfold succeeds.
    destruct Hsf as [(_ & _ & Hnil)|(_ & _ & [p Hp])].
    + rewrite Hnil. rewrite Nat.add_0_r. done.
    + rewrite Hp. rewrite Hp in Hin. specialize (Hin ltac:(done)).
      rewrite (proj1 (proj2 (proj2 (proj2 (proj2
                 (fetchPhotoBatch_resume_frame _ _ _)))))). simpl.
      case_bool_decide.
      * split; [by apply Nat.divide_add_r|].
        split; [by apply next_window_within_cap|done].
      * rewrite Nat.add_0_r. done.
Qed.

Lemma run_within_cap ids events c :
  ids ≠ [] → triggers_rendered events c →
  single_flight c → within_cap ids c →
  within_cap ids (run events c).
Proof.
  intros Hne. revert c.
  induction events as [|e events IH]; intros c Hfresh Hsf Hcap; [done|].
  destruct Hfresh as [Hhere Hrest]. simpl.
  apply IH; [done| |].
  - by apply single_flight_step.
  - by apply within_cap_step.
Qed.

(** C3, as stated, fails on the empty order: one trigger and the settlement
    of its (empty) batch take the cursor to 12, above
    [ceil(0 / 12) * 12 = 0].  [cursor_past_the_cap] has the other ways the
    bound fails. *)
Lemma cursor_cap_exceeded_on_empty_order :
  let events := [Trigger; Settle (λ _, None)] in
  currentIndex (state (run events (init []))) = 12 ∧
  successes events (init []) = 1 ∧
  cursor_cap (length (@nil string)) = 0 ∧
  ¬ (∀ (ids : list string) (events : list Event),
       let c := run events (init ids) in
       currentIndex (state c) = BATCH_SIZE * successes events (init ids) ∧
       currentIndex (state c) ≤ cursor_cap (length ids)).
Proof.
  repeat split.
  intros Hclaim.
  destruct (Hclaim [] [Trigger; Settle (λ _, None)]) as [_ Hcap].
  vm_compute in Hcap. lia.
Qed.

(** The loader alone, started with the order stored and no call made
    before: the cursor is the window size times the number of successful
    batch loads and, when the order is not empty and every call is made
    through the callback rendered from the current state, it never
    exceeds [ceil(N / WINDOW) * WINDOW]. *)
Theorem currentIndex_counts_successes (ids : list string) (events : list Event) :
  let c := run events (init ids) in
  currentIndex (state c) = BATCH_SIZE * successes events (init ids) ∧
  (ids ≠ [] → triggers_rendered events (init ids) →
   currentIndex (state c) ≤ cursor_cap (length ids)).
Proof.
  split; [apply run_currentIndex|].
  intros Hne Hfresh.
  apply (run_within_cap ids events (init ids) Hne Hfresh
           (init_single_flight ids)).
  unfold within_cap. simpl.
  split; [done|]. split; [apply Nat.divide_0_r|]. split; [lia|done].
Qed.

Lemma currentIndex_counts_successes_witness :
  let ids := ["a"; "b"; "c"; "d"; "e"; "f"; "g"; "h"; "i"; "j"; "k"; "l";
              "m"; "n"]%string in
  let remote : Remote := λ _, Some (Some ∅) in
  let events := [Trigger; Settle remote; Render; Trigger; Settle remote;
                 Render; Trigger; Render; Trigger] in
  ids ≠ [] ∧ triggers_rendered events (init ids) ∧
  currentIndex (state (run events (init ids))) ≤ cursor_cap (length ids).
Proof.
  intros ids remote events.
  assert (ids ≠ []) as Hne by discriminate.
  assert (triggers_rendered events (init ids)) as Hfresh.
  { vm_compute. repeat split; intros; discriminate. }
  split; [exact Hne|]. split; [exact Hfresh|].
  exact (proj2 (currentIndex_counts_successes ids events) Hne Hfresh).
Defined.

(** Why the bound asks for rendered callbacks: a trigger that arrives after
    a batch has settled but before React has re-rendered runs the callback
    of the previous cursor.  It fetches the same window again, the merge
    drops the records, and the cursor advances a second time. *)
Example stale_callback_advances_again :
  let remote : Remote := λ _, Some (Some ∅) in
  let c := run [Trigger; Settle remote; Trigger; Settle remote]
               (init ["a"; "b"]%string) in
  fanouts c = [["a"; "b"]; ["a"; "b"]]%string ∧
  length (photos (state c)) = 2 ∧
  currentIndex (state c) = 24 ∧
  cursor_cap 2 = 12.
Proof. vm_compute. repeat split. Qed.

(** ** Failure *)

(** C4.  A batch in which the read of some id of the window rejects: the
    rejection is caught (one [console.error] line, nothing escapes the
    call), the cursor and [photos] are what they were before the call, the
    lock and the indicator are released, nothing stays in flight, and the
    next call — through the same callback or through a re-rendered one —
    fans out the same window again. *)
Theorem failed_batch_is_retried (c : Component) (remote : Remote) (id : string) :
  loadingRef (state c) = false → inflight c = [] →
  cl_allLoaded (callback c) = false →
  id ∈ nextBatchIds (callback c) → remote id = None →
  let window := nextBatchIds (callback c) in
  let c1 := step Trigger c in
  let c2 := step (Settle remote) c1 in
  fanouts c1 = fanouts c ++ [window] ∧
  currentIndex (state c2) = currentIndex (state c) ∧
  photos (state c2) = photos (state c) ∧
  allLoaded (state c2) = allLoaded (state c) ∧
  loadingRef (state c2) = false ∧
  loading (state c2) = false ∧
  inflight c2 = [] ∧
  errors c2 = S (errors c) ∧
  fanouts (step Trigger c2) = fanouts c ++ [window; window] ∧
  (callback c = render (state c) →
   fanouts (step Trigger (step Render c2)) = fanouts c ++ [window; window]).
Proof.
  intros Hlock Hin Hflag Hid Hrej. cbv zeta.
  assert (exhausted (callback c) = false) as Hex.
  { apply not_true_iff_false. intros [Hnil _]%exhausted_spec.
    rewrite Hnil in Hid. by apply not_elem_of_nil in Hid. }
  pose proof (Promise_all_rejects remote _ id Hid Hrej) as Hall.
  assert (step Trigger c =
          await_all {| p_nextBatchIds := nextBatchIds (callback c);
                       p_currentIndex := cl_currentIndex (callback c) |}
                    (setLoading true (set_loadingRef true c))) as ->.
  { simpl. by apply fetchPhotoBatch_fans_out. }
  assert (step (Settle remote)
            (await_all {| p_nextBatchIds := nextBatchIds (callback c);
                          p_currentIndex := cl_currentIndex (callback c) |}
                       (setLoading true (set_loadingRef true c))) =
          finally (console_error
            {| state := state (setLoading true (set_loadingRef true c));
               inflight := [];
               fanouts := fanouts c ++ [nextBatchIds (callback c)];
               errors := errors c; callback := callback c |})) as ->.
  { simpl. rewrite Hin. simpl. unfold fetchPhotoBatch_resume. simpl.
    by rewrite Hall. }
  assert (∀ c2,
            c2 = finally (console_error
              {| state := state (setLoading true (set_loadingRef true c));
                 inflight := [];
                 fanouts := fanouts c ++ [nextBatchIds (callback c)];
                 errors := errors c; callback := callback c |}) →
            fanouts (step Trigger c2) =
            fanouts c ++ [nextBatchIds (callback c); nextBatchIds (callback c)])
    as Hretry.
  { intros c2 ->. simpl. unfold fetchPhotoBatch. simpl.
    rewrite Hflag, Hex. simpl. by rewrite <- app_assoc. }
  repeat (split; [done|]). split; [by apply Hretry|].
  intros Hrendered. apply Hretry.
  simpl. unfold_loader. simpl. f_equal. by rewrite Hrendered.
Qed.

Lemma failed_batch_is_retried_witness :
  let ids := ["a"; "b"; "c"]%string in
  let remote : Remote :=
    λ id, if decide (id = "b"%string) then None else Some (Some ∅) in
  let c2 := run [Trigger; Settle remote] (init ids) in
  currentIndex (state c2) = 0 ∧ photos (state c2) = [] ∧
  loadingRef (state c2) = false ∧
  fanouts (step Trigger c2) = [ids; ids].
Proof.
  intros ids remote c2.
  assert ("b"%string ∈ nextBatchIds (callback (init ids))) as Hid.
  { vm_compute. apply list_elem_of_further, list_elem_of_here. }
  destruct (failed_batch_is_retried (init ids) remote "b"%string
              eq_refl eq_refl eq_refl Hid eq_refl)
    as (_ & Hcursor & Hphotos & _ & Hlock & _ & _ & _ & Hretry & _).
  split; [exact Hcursor|]. split; [exact Hphotos|].
  split; [exact Hlock | exact Hretry].
Defined.

(** ** Exhaustion *)

Lemma step_allLoaded e c :
  allLoaded (state (step e c)) = true ↔
  allLoaded (state c) = true ∨
  (e = Trigger ∧ loadingRef (state c) = false ∧
   cl_allLoaded (callback c) = false ∧
   nextBatchIds (callback c) = [] ∧ cl_shuffledPhotoIds (callback c) ≠ []).
Proof.
  destruct e as [| |remote]; simpl.
  - intuition congruence.
  - unfold fetchPhotoBatch.
    destruct (loadingRef (state c)) eqn:Hlock; simpl; [intuition congruence|].
    destruct (cl_allLoaded (callback c)) eqn:Hflag; [intuition congruence|].
    destruct (exhausted (callback c)) eqn:Hex.
    + apply exhausted_spec in Hex. unfold_loader. simpl. intuition congruence.
    + apply not_true_iff_false in Hex. rewrite exhausted_spec in Hex.
      unfold_loader. simpl. intuition congruence.
  - destruct (inflight c) as [|p rest]; [intuition congruence|].
    rewrite (proj1 (proj2 (fetchPhotoBatch_resume_frame _ _ _))). simpl.
    intuition congruence.
Qed.

Lemma run_after_exhaustion events c :
  single_flight c → exhaustion_seen c → allLoaded (state c) = true →
  allLoaded (state (run events c)) = true ∧
  fanouts (run events c) = fanouts c ∧
  inflight (run events c) = [].
Proof.
  revert c. induction events as [|e events IH]; intros c Hsf Hseen Hflag.
  - simpl. repeat split; try done. by destruct (Hseen Hflag).
  - simpl.
    assert (fanouts (step e c) = fanouts c) as Hfan.
    { destruct e as [| |remote]; [done| |].
      - by rewrite trigger_after_exhaustion.
      - simpl. by destruct (Hseen Hflag) as [-> _]. }
    rewrite <- Hfan. apply IH.
    + by apply single_flight_step.
    + by apply exhaustion_seen_step.
    + apply step_allLoaded. by left.
Qed.

(** C5.  Once [allLoaded] is true in a component reached from the initial
    one, it is true after every further run of renders, triggers and
    settlements, no further window is fanned out and nothing is in flight.
    The flag turns from false to true in one step exactly when that step is
    a call that passes the guard and slices an empty window from a
    non-empty order. *)
Theorem allLoaded_terminal (ids : list string) (events events' : list Event)
    (e : Event) (c : Component) :
  (let c1 := run events (init ids) in
   allLoaded (state c1) = true →
   allLoaded (state (run events' c1)) = true ∧
   fanouts (run events' c1) = fanouts c1 ∧
   inflight (run events' c1) = []) ∧
  (allLoaded (state c) = false →
   (allLoaded (state (step e c)) = true ↔
    e = Trigger ∧ loadingRef (state c) = false ∧
    cl_allLoaded (callback c) = false ∧
    nextBatchIds (callback c) = [] ∧ cl_shuffledPhotoIds (callback c) ≠ [])).
Proof.
  split.
  - intros c1 Hflag.
    destruct (run_invariants events (init ids)
                (init_single_flight ids) (init_exhaustion_seen ids)).
    by apply run_after_exhaustion.
  - intros Hflag. rewrite step_allLoaded. rewrite Hflag. intuition congruence.
Qed.

Lemma allLoaded_terminal_witness :
  let ids := ["a"; "b"]%string in
  let remote : Remote := λ _, Some None in
  let c1 := run [Trigger; Settle remote; Render; Trigger] (init ids) in
  let c2 := run [Trigger; Render; Trigger; Settle remote; Trigger] c1 in
  allLoaded (state c1) = true ∧
  allLoaded (state c2) = true ∧ fanouts c2 = [ids].
Proof.
  intros ids remote c1 c2.
  assert (allLoaded (state c1) = true) as Hflag by (vm_compute; reflexivity).
  destruct (allLoaded_terminal ids
              [Trigger; Settle remote; Render; Trigger]
              [Trigger; Render; Trigger; Settle remote; Trigger]
              Render (init ids)) as [Hterminal _].
  destruct (Hterminal Hflag) as (Hstill & Hfan & _).
  split; [exact Hflag|]. split; [exact Hstill|].
  etrans; [exact Hfan|]. vm_compute. reflexivity.
Defined.

(** C10.  The exhaustion branch: a call that passes the guard, slices an
    empty window and has a non-empty order comes back with [allLoaded]
    set, the lock free and the indicator off, and everything else as it
    was: cursor, [photos], order, calls in flight, fan-outs, log and
    callback. *)
Theorem exhaustion_branch_frame (cl : Closure) (c : Component) :
  loadingRef (state c) = false → cl_allLoaded cl = false →
  nextBatchIds cl = [] → cl_shuffledPhotoIds cl ≠ [] →
  let c' := fetchPhotoBatch cl c in
  allLoaded (state c') = true ∧
  currentIndex (state c') = currentIndex (state c) ∧
  photos (state c') = photos (state c) ∧
  shuffledPhotoIds (state c') = shuffledPhotoIds (state c) ∧
  loadingRef (state c') = false ∧
  loading (state c') = false ∧
  inflight c' = inflight c ∧
  fanouts c' = fanouts c ∧
  errors c' = errors c ∧
  callback c' = callback c.
Proof.
  intros Hlock Hflag Hnil Hne. cbv zeta.
  rewrite fetchPhotoBatch_exhausted; [done..|].
  by apply exhausted_spec.
Qed.

Lemma exhaustion_branch_frame_witness :
  let ids := ["a"; "b"]%string in
  let c := run [Trigger; Settle (λ _, Some None); Render] (init ids) in
  let c' := fetchPhotoBatch (callback c) c in
  allLoaded (state c) = false ∧ allLoaded (state c') = true ∧
  currentIndex (state c') = 12 ∧ photos (state c') = photos (state c) ∧
  loadingRef (state c') = false ∧ loading (state c') = false.
Proof.
  intros ids c c'.
  assert (cl_shuffledPhotoIds (callback c) ≠ []) as Hne by discriminate.
  destruct (exhaustion_branch_frame (callback c) c
              eq_refl eq_refl eq_refl Hne)
    as (Hflag & Hcursor & Hphotos & _ & Hlock & Hload & _).
  split; [reflexivity|]. split; [exact Hflag|].
  split; [exact Hcursor|]. split; [exact Hphotos|].
  split; [exact Hlock | exact Hload].
Defined.

(** ** The animation index *)

Lemma newPhotos_tagged remote cl photoDocs :
  Promise_all (getDoc remote <$> nextBatchIds cl) = Some photoDocs →
  ∀ i p, newPhotos (cl_currentIndex cl) photoDocs !! i = Some p →
    photo_index p = Some (VNum (Z.of_nat (cl_currentIndex cl + i))) ∧
    ∃ d, photoDocs !! i = Some d ∧
         cl_shuffledPhotoIds cl !! (cl_currentIndex cl + i) = Some (d_id d).
Proof.
  intros Hall%Promise_all_getDoc i p. unfold newPhotos.
  rewrite list_lookup_imap.
  destruct (photoDocs !! i) as [d|] eqn:Hd; simpl; [|done].
  intros [= <-]. split; [apply newPhoto_index|].
  exists d. split; [done|].
  destruct (Forall2_lookup_r _ _ _ _ _ Hall Hd) as (id & Hid & Hdid & _).
  rewrite <- nextBatchIds_lookup by (by eapply lookup_lt_Some).
  by rewrite Hid, Hdid.
Qed.

Lemma settled_batch_photos c remote photoDocs :
  loadingRef (state c) = false → inflight c = [] →
  cl_allLoaded (callback c) = false → exhausted (callback c) = false →
  Promise_all (getDoc remote <$> nextBatchIds (callback c)) = Some photoDocs →
  photos (state (step (Settle remote) (step Trigger c))) =
  mergePhotos (newPhotos (cl_currentIndex (callback c)) photoDocs)
              (photos (state c)).
Proof.
  intros Hlock Hin Hflag Hex Hall.
  cbn [step]. rewrite fetchPhotoBatch_fans_out by done.
  simpl. rewrite Hin. simpl. unfold fetchPhotoBatch_resume. simpl.
  by rewrite Hall.
Qed.

(** C8.  In a batch that succeeds, called through the callback rendered
    from the current state, the record built from the [i]-th document of
    the window carries [index = currentIndex + i], the cursor being the one
    the call started from; the id at that position of the shuffled order is
    the id of this document.  The records the batch adds to [photos] are
    among these tagged records. *)
Theorem newPhotos_index_is_position (c : Component) (remote : Remote)
    (photoDocs : list DocumentSnapshot) :
  loadingRef (state c) = false → inflight c = [] →
  callback c = render (state c) → allLoaded (state c) = false →
  exhausted (callback c) = false →
  Promise_all (getDoc remote <$> nextBatchIds (callback c)) = Some photoDocs →
  let cursor := currentIndex (state c) in
  let c2 := step (Settle remote) (step Trigger c) in
  photos (state c2) =
    mergePhotos (newPhotos cursor photoDocs) (photos (state c)) ∧
  length (newPhotos cursor photoDocs) = length (nextBatchIds (callback c)) ∧
  (∀ i p, newPhotos cursor photoDocs !! i = Some p →
     photo_index p = Some (VNum (Z.of_nat (cursor + i))) ∧
     ∃ d, photoDocs !! i = Some d ∧
          shuffledPhotoIds (state c) !! (cursor + i) = Some (d_id d)) ∧
  (∀ p, p ∈ photos (state c2) →
     p ∈ photos (state c) ∨ ∃ i, newPhotos cursor photoDocs !! i = Some p).
Proof.
  intros Hlock Hin Hrendered Hflag Hex Hall. cbv zeta.
  assert (cl_allLoaded (callback c) = false) as Hclflag
    by (by rewrite Hrendered).
  assert (cl_currentIndex (callback c) = currentIndex (state c)) as Hcursor
    by (by rewrite Hrendered).
  assert (cl_shuffledPhotoIds (callback c) = shuffledPhotoIds (state c))
    as Horder by (by rewrite Hrendered).
  rewrite (settled_batch_photos c remote photoDocs) by done.
  rewrite <- Hcursor, <- Horder.
  split; [done|]. split; [|split].
  - unfold newPhotos. rewrite length_imap.
    apply Promise_all_getDoc, Forall2_length in Hall. done.
  - exact (newPhotos_tagged remote (callback c) photoDocs Hall).
  - intros p. unfold mergePhotos.
    intros [Hold|Hnew%list_elem_of_filter]%elem_of_app; [by left|].
    right. apply list_elem_of_lookup. apply Hnew.
Qed.

Lemma newPhotos_index_is_position_witness :
  let ids := ["a"; "b"; "c"; "d"; "e"; "f"; "g"; "h"; "i"; "j"; "k"; "l";
              "m"; "n"]%string in
  let remote : Remote := λ id, Some (Some {["index"%string := VNum 99]}) in
  let c := run [Trigger; Settle remote; Render] (init ids) in
  let c2 := step (Settle remote) (step Trigger c) in
  currentIndex (state c) = 12 ∧
  photo_index <$> drop 12 (photos (state c2)) =
    [Some (VNum 12); Some (VNum 13)].
Proof.
  intros ids remote c c2.
  assert (Promise_all (getDoc remote <$> nextBatchIds (callback c)) =
          Some ((λ id, {| d_id := id;
                          d_data := Some {["index"%string := VNum 99]} |})
                  <$> ["m"; "n"]%string)) as Hall
    by (vm_compute; reflexivity).
  destruct (newPhotos_index_is_position c remote _
              eq_refl eq_refl eq_refl eq_refl eq_refl Hall)
    as (Hphotos & _).
  split; [reflexivity|].
  fold c2 in Hphotos. rewrite Hphotos. vm_compute. reflexivity.
Defined.

(** ** The empty order *)

Lemma nextBatchIds_empty_order cl :
  cl_shuffledPhotoIds cl = [] → nextBatchIds cl = [] ∧ exhausted cl = false.
Proof.
  intros Hnil. unfold exhausted, nextBatchIds, slice. rewrite Hnil.
  rewrite drop_nil, take_nil. done.
Qed.

Lemma empty_order_step e c : empty_order c → empty_order (step e c).
Proof.
  intros Hc. pose proof Hc as (Hids & Hcb & Hflag & Hclflag & Hphotos & Hflight).
  destruct (nextBatchIds_empty_order _ Hcb) as [Hwin Hex].
  destruct e as [| |remote]; simpl.
  - unfold empty_order. simpl. done.
  - unfold fetchPhotoBatch. rewrite Hclflag, Hex, orb_false_r.
    destruct (loadingRef (state c)); [done|].
    unfold_loader. unfold empty_order. simpl.
    repeat (split; [done|]).
    apply Forall_app. split; [done|]. by apply Forall_singleton.
  - destruct (inflight c) as [|p rest] eqn:Hin; [done|].
    apply Forall_cons in Hflight as [Hp Hrest].
    unfold fetchPhotoBatch_resume. rewrite Hp. simpl.
    unfold_loader. unfold empty_order. simpl.
    rewrite Hphotos. done.
Qed.

Lemma run_empty_order events c : empty_order c → empty_order (run events c).
Proof.
  revert c. induction events as [|e events IH]; intros c Hc; [done|].
  simpl. by apply IH, empty_order_step.
Qed.

Lemma successes_rounds remotes c :
  empty_order c → loadingRef (state c) = false → inflight c = [] →
  successes (rounds remotes) c = length remotes ∧
  loadingRef (state (run (rounds remotes) c)) = false.
Proof.
  revert c. induction remotes as [|remote remotes IH]; intros c Hc Hlock Hin;
    [done|].
  pose proof Hc as (_ & Hcb & _ & Hclflag & _ & _).
  destruct (nextBatchIds_empty_order _ Hcb) as [Hwin Hex].
  change (rounds (remote :: remotes))
    with (Trigger :: Settle remote :: rounds remotes).
  cbn [successes run].
  assert (step Trigger c =
          await_all {| p_nextBatchIds := [];
                       p_currentIndex := cl_currentIndex (callback c) |}
                    (setLoading true (set_loadingRef true c))) as Hstep.
  { simpl. rewrite fetchPhotoBatch_fans_out by done. by rewrite Hwin. }
  assert (succeeds Trigger c = false) as -> by done.
  assert (succeeds (Settle remote) (step Trigger c) = true) as ->.
  { rewrite Hstep. unfold succeeds. simpl. by rewrite Hin. }
  destruct (IH (step (Settle remote) (step Trigger c))) as [-> ->].
  - by do 2 apply empty_order_step.
  - rewrite Hstep. simpl. by rewrite Hin.
  - rewrite Hstep. simpl. by rewrite Hin.
  - done.
Qed.

(** C9.  With an empty order, along every run the exhaustion flag stays
    false and [photos] stays empty, while the cursor is the window size
    times the number of completed calls; [n] rounds of a trigger followed
    by the settlement of its call take the cursor to [12 * n], for
    every [n]. *)
Theorem empty_order_never_exhausts (events : list Event) (remotes : list Remote) :
  (let c := run events (init []) in
   allLoaded (state c) = false ∧
   photos (state c) = [] ∧
   currentIndex (state c) = BATCH_SIZE * successes events (init [])) ∧
  (let c := run (rounds remotes) (init []) in
   currentIndex (state c) = BATCH_SIZE * length remotes ∧
   photos (state c) = [] ∧
   allLoaded (state c) = false ∧
   loadingRef (state c) = false).
Proof.
  assert (empty_order (init [])) as Hinit.
  { unfold empty_order. simpl. repeat split; constructor. }
  split; cbv zeta.
  - destruct (run_empty_order events _ Hinit) as (_ & _ & Hflag & _ & Hphotos & _).
    split; [done|]. split; [done|]. apply run_currentIndex.
  - destruct (run_empty_order (rounds remotes) _ Hinit)
      as (_ & _ & Hflag & _ & Hphotos & _).
    destruct (successes_rounds remotes _ Hinit eq_refl eq_refl) as [Hn Hlock].
    rewrite run_currentIndex, Hn. done.
Qed.

Example empty_order_three_rounds :
  let c := run (rounds [λ _, None; λ _, None; λ _, None]) (init []) in
  currentIndex (state c) = 36 ∧ photos (state c) = [] ∧
  allLoaded (state c) = false ∧ fanouts c = [[]; []; []].
Proof. vm_compute. repeat split. Qed.

(** ** The happy path of the specification, run on the model

    Thirty ids: three batches of 12, 12 and 6 records take the cursor to 36,
    and the fourth trigger finds its window empty. *)
Example thirty_ids :
  let ids := (λ n, String (Ascii.ascii_of_nat (65 + n)) EmptyString) <$> seq 0 30 in
  let remote : Remote := λ _, Some (Some {["url"%string := VStr "u"]}) in
  let load := [Trigger; Settle remote; Render] in
  let c3 := run (load ++ load ++ load) (init ids) in
  let c4 := step Trigger c3 in
  length <$> fanouts c3 = [12; 12; 6] ∧
  length (photos (state c3)) = 30 ∧
  currentIndex (state c3) = 36 ∧
  allLoaded (state c3) = false ∧
  allLoaded (state c4) = true ∧
  length <$> fanouts c4 = [12; 12; 6] ∧
  length (photos (state c4)) = 30.
Proof. vm_compute. repeat split. Qed.

(** * Further properties of the shuffler *)

Section reachability.
Context {A : Type}.
Implicit Types (l p q s : list A) (i j : nat).



Lemma fisher_yates_down_ext draw1 draw2 i l :
  (∀ k, k ≤ i → draw1 k = draw2 k) →
  fisher_yates_down draw1 i l = fisher_yates_down draw2 i l.
Proof.
  revert l. induction i as [|i IH]; intros l Heq; [done|].
  cbn [fisher_yates_down]. rewrite (Heq (S i)) by lia.
  apply IH. intros k Hk. apply Heq. lia.
Qed.

End reachability.

Lemma draws_for_range draw n k :
  (∀ i, draw i ≤ i) → unit_interval (draws_for draw n k).
Proof.
  intros Hdraw. unfold draws_for, unit_interval, Qle, Qlt. cbn [Qnum Qden].
  pose proof (Hdraw (n - 1 - k)).
  destruct (decide (n - k = 0)) as [Hz|Hne].
  - rewrite Hz. simpl. lia.
  - assert (Z.pos (Pos.of_nat (n - k)) = Z.of_nat (n - k)) as ->.
    { rewrite <- positive_nat_Z, Nat2Pos.id by done. done. }
    lia.
Qed.

Lemma drawn_draws_for draw n i :
  i < n → drawn (draws_for draw n) n i = draw i.
Proof.
  intros Hi. unfold drawn, draws_for, randomIndex.
  replace (n - 1 - (n - 1 - i)) with i by lia.
  replace (n - (n - 1 - i)) with (i + 1) by lia.
  unfold Qfloor, Qmult, inject_Z. simpl.
  rewrite Pos.mul_1_r.
  assert (Z.pos (Pos.of_nat (i + 1)) = Z.of_nat (i + 1)) as ->.
  { rewrite <- positive_nat_Z, Nat2Pos.id by lia. done. }
  rewrite Z.div_mul by lia. apply Nat2Z.id.
Qed.



(** X2.  An array of at most one element comes back unchanged, whatever
    [Math.random()] returns within [0, 1). *)
Theorem shuffleArray_short {A} (random : nat → Q) (array : list A) :
  (∀ k, unit_interval (random k)) → length array ≤ 1 →
  shuffleArray random (JsArray.of_list array) = JsArray.of_list array.
Proof.
  intros Hrange Hlen. rewrite shuffleArray_fisher_yates by done.
  unfold fisher_yates. by replace (length array - 1) with 0 by lia.
Qed.

Lemma shuffleArray_short_witness :
  shuffleArray (λ _, 3 # 4) (JsArray.of_list ["only"%string]) =
  JsArray.of_list ["only"%string].
Proof.
  apply shuffleArray_short; [|simpl; lia].
  intros _. split; [discriminate | reflexivity].
Defined.

(** * Further properties of the batch loader *)

(** ** What only grows *)

Lemma step_grows e c :
  photos (state c) `prefix_of` photos (state (step e c)) ∧
  fanouts c `prefix_of` fanouts (step e c) ∧
  errors c ≤ errors (step e c).
Proof.
  destruct e as [| |remote]; simpl.
  - done.
  - unfold fetchPhotoBatch.
    destruct (loadingRef (state c) || cl_allLoaded (callback c)); [done|].
    destruct (exhausted (callback c)); [done|].
    simpl. split; [done|]. split; [by apply prefix_app_r|done].
  - destruct (inflight c) as [|p rest]; [done|].
    unfold fetchPhotoBatch_resume.
    destruct (Promise_all (getDoc remote <$> p_nextBatchIds p)); simpl.
    + split; [|done]. unfold mergePhotos. by apply prefix_app_r.
    + split; [done|]. split; [done|lia].
Qed.

(** X3.  Along every run, from any component, the loader only adds:
    [photos] keeps its records and their order and grows at the end, the
    cursor never goes back, the order of ids is never touched, and the
    fan-outs and the error log only grow. *)
Theorem loader_only_grows (events : list Event) (c : Component) :
  let c' := run events c in
  photos (state c) `prefix_of` photos (state c') ∧
  currentIndex (state c) ≤ currentIndex (state c') ∧
  shuffledPhotoIds (state c') = shuffledPhotoIds (state c) ∧
  fanouts c `prefix_of` fanouts c' ∧
  errors c ≤ errors c'.
Proof.
  cbv zeta. revert c. induction events as [|e events IH]; intros c; [done|].
  cbn [run]. destruct (IH (step e c)) as (Hp & Hc & Hs & Hf & He).
  destruct (step_grows e c) as (Hp' & Hf' & He').
  split; [by etrans|]. split.
  { rewrite step_currentIndex in Hc. lia. }
  split; [by rewrite Hs, step_shuffledPhotoIds|].
  split; [by etrans | lia].
Qed.

(** ** Accounting for the fan-outs *)

Lemma step_accounting e c :
  length (fanouts (step e c)) + errors c + length (inflight c) =
  length (fanouts c) + errors (step e c) + length (inflight (step e c)) +
  (if succeeds e c then 1 else 0).
Proof.
  destruct e as [| |remote]; simpl.
  - lia.
  - unfold fetchPhotoBatch.
    destruct (loadingRef (state c) || cl_allLoaded (callback c)); [lia|].
    destruct (exhausted (callback c)); simpl; [lia|].
    rewrite !length_app. simpl. lia.
  - unfold succeeds. destruct (inflight c) as [|p rest] eqn:Hin;
      [simpl; rewrite Hin; simpl; lia|].
    unfold fetchPhotoBatch_resume.
    destruct (Promise_all (getDoc remote <$> p_nextBatchIds p)) eqn:Hall.
    + rewrite bool_decide_eq_true_2 by eauto. simpl. lia.
    + rewrite bool_decide_eq_false_2 by (by intros [??]). simpl. lia.
Qed.

Lemma run_accounting events c :
  length (fanouts (run events c)) + errors c + length (inflight c) =
  length (fanouts c) + errors (run events c) +
  length (inflight (run events c)) + successes events c.
Proof.
  revert c. induction events as [|e events IH]; intros c;
    cbn [run successes]; [lia|].
  pose proof (IH (step e c)). pose proof (step_accounting e c). lia.
Qed.

(** X4.  Every fan-out is accounted for: along every run from the initial
    component, the number of windows fanned out is the number of windows
    the cursor has advanced by, plus the number of logged errors, plus the
    number of calls still in flight. *)
Theorem fanouts_accounted (ids : list string) (events : list Event) :
  let c := run events (init ids) in
  length (fanouts c) =
  currentIndex (state c) / BATCH_SIZE + errors c + length (inflight c).
Proof.
  cbv zeta. pose proof (run_accounting events (init ids)) as Hacc.
  assert (currentIndex (state (run events (init ids))) / BATCH_SIZE =
          successes events (init ids)) as ->.
  { rewrite run_currentIndex.
    change (currentIndex (state (init ids))) with 0.
    rewrite Nat.add_0_l, Nat.mul_comm. by apply Nat.div_mul. }
  simpl in Hacc. lia.
Qed.

(** ** Where the records come from *)

Lemma run_duplicate_free events c :
  Forall keyed_by_document events → duplicate_free c →
  duplicate_free (run events c).
Proof.
  intros Hkeyed. revert c.
  induction Hkeyed as [|e events He _ IH]; intros c Hc; [done|].
  simpl. by apply IH, duplicate_free_step.
Qed.

Lemma nextBatchIds_subseteq cl : nextBatchIds cl ⊆ cl_shuffledPhotoIds cl.
Proof.
  unfold nextBatchIds, slice. intros id Hid.
  eapply elem_of_sublist; [exact Hid|].
  etrans; [apply sublist_take | apply sublist_drop].
Qed.

Lemma from_order_step ids e c :
  keyed_by_document e → from_order ids c → from_order ids (step e c).
Proof.
  intros Hkeyed Hfo. pose proof Hfo as (Hphotos & Hflight & Hcb & Hids).
  destruct e as [| |remote]; simpl.
  - unfold from_order. simpl. by rewrite Hids.
  - unfold fetchPhotoBatch.
    destruct (loadingRef (state c) || cl_allLoaded (callback c)); [done|].
    destruct (exhausted (callback c)); [done|].
    unfold from_order. simpl. repeat (split; [done|]). split; [|done].
    apply Forall_app. split; [done|]. apply Forall_singleton. simpl.
    etrans; [apply nextBatchIds_subseteq | done].
  - destruct (inflight c) as [|p rest] eqn:Hin; [done|].
    apply Forall_cons in Hflight as [Hp Hrest]. clear Hfo.
    unfold fetchPhotoBatch_resume.
    destruct (Promise_all (getDoc remote <$> p_nextBatchIds p))
      as [photoDocs|] eqn:Hall; [|done].
    unfold from_order. simpl. split; [|done].
    intros q. unfold mergePhotos.
    intros [Hold|[_ Hnew]%list_elem_of_filter]%elem_of_app; [by apply Hphotos|].
    pose proof (newPhotos_ids remote (p_currentIndex p) _ _ Hkeyed Hall) as Hnewids.
    assert (photo_id q ∈ photo_id <$> newPhotos (p_currentIndex p) photoDocs)
      as Hq by (by apply list_elem_of_fmap_2).
    rewrite Hnewids in Hq.
    apply list_elem_of_fmap in Hq as (id & Hqid & Hid).
    exists id. split; [by apply Hp | done].
Qed.

Lemma run_from_order ids events c :
  Forall keyed_by_document events → from_order ids c →
  from_order ids (run events c).
Proof.
  intros Hkeyed. revert c.
  induction Hkeyed as [|e events He _ IH]; intros c Hc; [done|].
  simpl. by apply IH, from_order_step.
Qed.

(** X5.  Along every run, stale callbacks included, with documents
    identified by their key: every loaded record is the record of an id of
    the order, and when the order has no repeated id there are never more
    records than ids. *)
Theorem photos_come_from_order (ids : list string) (events : list Event) :
  Forall keyed_by_document events →
  let c := run events (init ids) in
  (∀ p, p ∈ photos (state c) → ∃ id, id ∈ ids ∧ photo_id p = Some (VStr id)) ∧
  (NoDup ids → length (photos (state c)) ≤ length ids).
Proof.
  intros Hkeyed. cbv zeta.
  assert (from_order ids (run events (init ids))) as (Hphotos & _).
  { apply run_from_order; [done|].
    unfold from_order. simpl. repeat split; try done.
    intros p Hp. by apply not_elem_of_nil in Hp. }
  split; [done|]. intros Hids.
  assert (duplicate_free (run events (init ids))) as (Hnd & _).
  { apply run_duplicate_free; [done|].
    unfold duplicate_free. simpl. repeat split; try done; constructor. }
  rewrite <- (length_fmap photo_id), <- (length_fmap (Some ∘ VStr) ids).
  apply submseteq_length, NoDup_submseteq; [done|].
  intros x (p & -> & Hp)%list_elem_of_fmap.
  destruct (Hphotos p Hp) as (id & Hid & ->).
  by apply (list_elem_of_fmap_2 (Some ∘ VStr)).
Qed.

Lemma photos_come_from_order_witness :
  let ids := ["a"; "b"]%string in
  let remote : Remote := λ _, Some (Some {["url"%string := VStr "u"]}) in
  let events := [Trigger; Settle remote; Trigger; Settle remote] in
  Forall keyed_by_document events ∧
  length (photos (state (run events (init ids)))) ≤ length ids.
Proof.
  intros ids remote events.
  assert (Forall keyed_by_document events) as Hkeyed.
  { repeat constructor; intros id data [= <-]; vm_compute; reflexivity. }
  assert (NoDup ids) as Hids.
  { apply (bool_decide_unpack _). vm_compute. reflexivity. }
  split; [exact Hkeyed|].
  exact (proj2 (photos_come_from_order ids events Hkeyed) Hids).
Defined.

(** ** Loading through rendered callbacks *)

Lemma lock_inflight_step e c : lock_inflight c → lock_inflight (step e c).
Proof.
  intros Hli. destruct e as [| |remote]; simpl.
  - exact Hli.
  - destruct Hli as [[Hlock Hin]|[Hlock Hin]].
    + unfold fetchPhotoBatch. rewrite Hlock. simpl.
      destruct (cl_allLoaded (callback c)); [by left|].
      destruct (exhausted (callback c)); [by left|].
      right. simpl. rewrite Hin. eauto.
    + rewrite fetchPhotoBatch_guarded by auto. by right.
  - destruct Hli as [[Hlock Hin]|[Hlock [p Hin]]]; rewrite Hin; [by left|].
    left.
    pose proof (fetchPhotoBatch_resume_frame p remote
      {| state := state c; inflight := []; fanouts := fanouts c;
         errors := errors c; callback := callback c |}) as Hfr.
    simpl in Hfr. destruct Hfr as (_ & _ & Hl & _ & Hi & _). done.
Qed.

Lemma slice_app {A} (l : list A) a b c :
  a ≤ b → b ≤ c → slice a b l ++ slice b c l = slice a c l.
Proof.
  intros Hab Hbc. unfold slice.
  replace (drop b l) with (drop (b - a) (drop a l))
    by (rewrite drop_drop; f_equal; lia).
  rewrite take_take_drop. f_equal. lia.
Qed.

Lemma slice_length {A} (l : list A) a b :
  length (slice a b l) = (b - a) `min` (length l - a).
Proof. unfold slice. by rewrite length_take, length_drop. Qed.

Lemma slice_NoDup {A} (l : list A) a b : NoDup l → NoDup (slice a b l).
Proof.
  intros Hnd. unfold slice. eapply sublist_NoDup; [exact Hnd|].
  etrans; [apply sublist_take | apply sublist_drop].
Qed.

Lemma filter_all {A} (P : A → Prop) `{!∀ x, Decision (P x)} (l : list A) :
  Forall P l → filter P l = l.
Proof.
  induction 1 as [|x l Hx _ IH]; [done|].
  by rewrite filter_cons_True, IH.
Qed.

Lemma newPhotos_indices currentIndex photoDocs :
  photo_index <$> newPhotos currentIndex photoDocs =
  (λ k, Some (VNum (Z.of_nat k))) <$> seq currentIndex (length photoDocs).
Proof.
  apply list_eq. intros i. unfold newPhotos.
  rewrite !list_lookup_fmap, list_lookup_imap.
  destruct (photoDocs !! i) as [d|] eqn:Hd; simpl.
  - rewrite lookup_seq_lt by (by eapply lookup_lt_Some). simpl.
    by rewrite newPhoto_index.
  - apply lookup_ge_None in Hd. by rewrite lookup_seq_ge.
Qed.

(** With an order free of duplicates, the merge of the window at the
    cursor appends all of it. *)
Lemma mergePhotos_next_window ids start cursor newPhotos prevPhotos :
  NoDup ids → start ≤ cursor →
  photo_id <$> prevPhotos = (Some ∘ VStr) <$> slice start cursor ids →
  photo_id <$> newPhotos =
    (Some ∘ VStr) <$> slice cursor (cursor + BATCH_SIZE) ids →
  mergePhotos newPhotos prevPhotos = prevPhotos ++ newPhotos.
Proof.
  intros Hnd Hle Hprev Hnew. unfold mergePhotos. f_equal.
  apply filter_all, Forall_forall. intros q Hq.
  rewrite not_elem_of_list_to_set, Hprev.
  intros (id & Hqid & Hid)%list_elem_of_fmap.
  assert (photo_id q ∈ photo_id <$> newPhotos) as Hq'
    by (by apply list_elem_of_fmap_2).
  rewrite Hnew, Hqid in Hq'.
  apply list_elem_of_fmap in Hq' as (id' & [= <-] & Hid').
  pose proof (slice_NoDup ids start (cursor + BATCH_SIZE) Hnd) as Hall.
  rewrite <- (slice_app ids start cursor) in Hall by lia.
  apply NoDup_app in Hall as (_ & Hdisj & _). by apply (Hdisj id).
Qed.

Lemma loaded_from_step start ids e c :
  NoDup ids → keyed_by_document e →
  (e = Trigger → callback c = render (state c)) →
  lock_inflight c → loaded_from start ids c →
  loaded_from start ids (step e c).
Proof.
  intros Hnd Hkeyed Hfresh Hli Hlf.
  pose proof Hlf as (Hids & Hstart & Hpids & Hpidx & Hflight & Hflag).
  destruct e as [| |remote].
  - exact Hlf.
  - specialize (Hfresh eq_refl). cbn [step]. rewrite Hfresh.
    unfold fetchPhotoBatch. cbn [render cl_allLoaded].
    destruct (loadingRef (state c) || allLoaded (state c)); [done|].
    destruct (exhausted (render (state c))) eqn:Hex.
    + unfold loaded_from. simpl. repeat (split; [done|]).
      intros _. apply exhausted_spec in Hex as [Hnil _].
      destruct (decide (currentIndex (state c) < length ids)) as [Hlt|]; [|lia].
      exfalso. apply (proj2 (nextBatchIds_nonempty (render (state c)))); [|done].
      simpl. by rewrite Hids.
    + unfold loaded_from. simpl. repeat (split; [done|]). split; [|done].
      apply Forall_app. split; [done|]. apply Forall_singleton. simpl.
      split; [done|]. unfold nextBatchIds. simpl. by rewrite Hids.
  - cbn [step]. destruct Hli as [[_ Hin]|[_ [p Hin]]]; rewrite Hin; [done|].
    rewrite Hin in Hflight. apply Forall_singleton in Hflight as [Hpc Hpw].
    unfold fetchPhotoBatch_resume. cbn [p_nextBatchIds p_currentIndex].
    destruct (Promise_all (getDoc remote <$> p_nextBatchIds p))
      as [photoDocs|] eqn:Hall.
    + pose proof (newPhotos_ids remote (p_currentIndex p) _ _ Hkeyed Hall)
        as Hnewids.
      rewrite Hpw, Hpc in Hnewids. rewrite Hpc.
      assert (length photoDocs =
              length (slice (currentIndex (state c))
                            (currentIndex (state c) + BATCH_SIZE) ids)) as Hlen.
      { apply Promise_all_getDoc, Forall2_length in Hall.
        by rewrite <- Hall, Hpw. }
      unfold loaded_from. simpl.
      rewrite (mergePhotos_next_window ids start (currentIndex (state c)))
        by done.
      split; [done|]. split; [lia|]. split; [|split; [|split]].
      * rewrite fmap_app, Hpids, Hnewids, <- fmap_app.
        f_equal. apply slice_app; lia.
      * rewrite fmap_app, Hpidx, newPhotos_indices, length_app.
        rewrite seq_app, fmap_app. f_equal.
        destruct photoDocs as [|d photoDocs]; [done|].
        f_equal. f_equal.
        { rewrite <- (length_fmap photo_id), Hpids, length_fmap, slice_length.
          rewrite slice_length in Hlen. simpl in Hlen. lia. }
        unfold newPhotos. by rewrite length_imap.
      * constructor.
      * intros Htrue. specialize (Hflag Htrue). lia.
    + unfold loaded_from. simpl. repeat (split; [done|]). done.
Qed.

Lemma run_loaded_from start ids events c :
  NoDup ids → Forall keyed_by_document events →
  triggers_rendered events c →
  lock_inflight c → loaded_from start ids c →
  loaded_from start ids (run events c) ∧ lock_inflight (run events c).
Proof.
  intros Hnd Hkeyed. revert c.
  induction Hkeyed as [|e events He _ IH]; intros c Hfresh Hli Hlf; [done|].
  destruct Hfresh as [Hhere Hrest]. simpl.
  apply IH; [done| |].
  - by apply lock_inflight_step.
  - by apply loaded_from_step.
Qed.

Lemma init_loaded_from ids : loaded_from 0 ids (init ids).
Proof.
  unfold loaded_from. simpl. repeat split; try done; constructor.
Qed.

Lemma slice_from_start {A} (l : list A) n : slice 0 n l = take n l.
Proof. unfold slice. by rewrite Nat.sub_0_r. Qed.

(** X9.  Loaded through rendered callbacks, from an order without repeated
    ids and documents identified by their key: the item at position [k] of
    the grid has the animation delay [(k mod 3) * 0.15] seconds, so the
    delays run 0, 0.15, 0.3, 0, 0.15, ... along the grid, across batches. *)
Theorem grid_animation_delays (ids : list string) (events : list Event)
    (a : App) (k : nat) (item : Item) :
  NoDup ids → Forall keyed_by_document events →
  triggers_rendered events (init ids) →
  component a = run events (init ids) →
  grid (App_view a) !! k = Some item →
  item_animationDelay item =
  Some (inject_Z (Z.of_nat (k mod 3)) * (15 # 100))%Q.
Proof.
  intros Hnd Hkeyed Hfresh Ha. unfold App_view. cbn [grid]. rewrite Ha.
  rewrite list_lookup_fmap.
  destruct (photos (state (run events (init ids))) !! k) as [photo|] eqn:Hk;
    [|done].
  intros [= <-]. cbn [PhotoItem item_animationDelay]. unfold animationDelay.
  destruct (run_loaded_from 0 ids events (init ids) Hnd Hkeyed Hfresh)
    as [(_ & _ & _ & Hpidx & _) _]; [by left | apply init_loaded_from |].
  assert ((photo_index <$> photos (state (run events (init ids)))) !! k =
          Some (photo_index photo)) as Hidx
    by (by rewrite list_lookup_fmap, Hk).
  rewrite Hpidx, list_lookup_fmap, lookup_seq_lt in Hidx
    by (by eapply lookup_lt_Some).
  simpl in Hidx. injection Hidx as <-.
  rewrite Z.rem_mod_nonneg by lia.
  by rewrite (Nat2Z.inj_mod k 3).
Qed.

Lemma grid_animation_delays_witness :
  let ids := ["a"; "b"; "c"; "d"; "e"]%string in
  let ok : Remote := λ _, Some (Some ∅) in
  let events := [Trigger; Settle ok] in
  let a := {| component := run events (init ids); enumerating := false;
              rendered_photos_length := 0; selectedImage := None |} in
  item_animationDelay <$> grid (App_view a) !! 4 = Some (Some (15 # 100)%Q).
Proof.
  intros ids ok events a.
  assert (NoDup ids) as Hnd.
  { apply (bool_decide_unpack _). vm_compute. reflexivity. }
  assert (Forall keyed_by_document events) as Hkeyed.
  { repeat constructor; intros id data; try discriminate;
      intros [= <-]; vm_compute; reflexivity. }
  assert (triggers_rendered events (init ids)) as Hfresh.
  { vm_compute. repeat split; intros; discriminate. }
  destruct (grid (App_view a) !! 4) as [item|] eqn:Hitem;
    [|vm_compute in Hitem; discriminate].
  simpl.
  rewrite (grid_animation_delays ids events a 4 item Hnd Hkeyed Hfresh
             (eq_refl (run events (init ids))) Hitem).
  reflexivity.
Defined.

(** ** Rounds that succeed *)

Lemma Promise_all_resolves remote ids :
  resolves remote → is_Some (Promise_all (getDoc remote <$> ids)).
Proof.
  intros Hres. unfold Promise_all. apply mapM_is_Some, Forall_fmap, Forall_forall.
  intros id _. simpl. unfold getDoc. by destruct (Hres id) as [data ->].
Qed.

Lemma triggers_rendered_loads remotes c : triggers_rendered (loads remotes) c.
Proof.
  revert c. induction remotes as [|remote remotes IH]; intros c; [done|].
  change (loads (remote :: remotes))
    with (Render :: Trigger :: Settle remote :: loads remotes).
  cbn [triggers_rendered]. repeat split; try done; apply IH.
Qed.

(** One round from an idle component: the cursor advances by one window,
    unless the order is exhausted. *)
Lemma load_round ids remote c :
  resolves remote →
  shuffledPhotoIds (state c) = ids →
  loadingRef (state c) = false → inflight c = [] →
  (allLoaded (state c) = true → length ids ≤ currentIndex (state c)) →
  let c' := run [Render; Trigger; Settle remote] c in
  loadingRef (state c') = false ∧ inflight c' = [] ∧
  (currentIndex (state c') = currentIndex (state c) + BATCH_SIZE ∨
   (currentIndex (state c') = currentIndex (state c) ∧
    length ids ≤ currentIndex (state c))).
Proof.
  intros Hres Hids Hlock Hin Hflag. cbv zeta. cbn [run].
  set (c1 := step Render c).
  assert (callback c1 = render (state c)) as Hcb by done.
  cbn [step]. rewrite Hcb.
  destruct (allLoaded (state c)) eqn:Hall.
  { rewrite fetchPhotoBatch_guarded by (by right).
    unfold c1. simpl. rewrite Hin. simpl.
    split; [done|]. split; [done|]. right. split; [done|]. by apply Hflag. }
  destruct (exhausted (render (state c))) eqn:Hex.
  - rewrite fetchPhotoBatch_exhausted by done.
    unfold c1. simpl. rewrite Hin. simpl.
    split; [done|]. split; [done|]. right. split; [done|].
    apply exhausted_spec in Hex as [Hnil _].
    destruct (decide (currentIndex (state c) < length ids)) as [Hlt|]; [|lia].
    exfalso. apply (proj2 (nextBatchIds_nonempty (render (state c)))); [|done].
    simpl. by rewrite Hids.
  - rewrite fetchPhotoBatch_fans_out by done.
    unfold c1. simpl. rewrite Hin. simpl.
    unfold fetchPhotoBatch_resume. simpl.
    destruct (Promise_all_resolves remote (nextBatchIds (render (state c))) Hres)
      as [photoDocs ->].
    simpl. split; [done|]. split; [done|]. by left.
Qed.

Lemma run_loads start ids remotes k c :
  NoDup ids → Forall resolves remotes →
  Forall (λ remote, keyed_by_document (Settle remote)) remotes →
  loaded_from start ids c → loadingRef (state c) = false → inflight c = [] →
  (currentIndex (state c) = start + BATCH_SIZE * k ∨
   (length ids ≤ currentIndex (state c) ∧ length ids ≤ start + BATCH_SIZE * k)) →
  let c' := run (loads remotes) c in
  loaded_from start ids c' ∧
  (currentIndex (state c') = start + BATCH_SIZE * (k + length remotes) ∨
   (length ids ≤ currentIndex (state c') ∧
    length ids ≤ start + BATCH_SIZE * (k + length remotes))).
Proof.
  intros Hnd Hres Hkeyed. revert k c.
  induction Hres as [|remote remotes Hr _ IH]; intros k c Hlf Hlock Hin Hk.
  { cbv zeta. simpl. rewrite Nat.add_0_r. done. }
  apply Forall_cons in Hkeyed as [Hkr Hkeyed].
  change (loads (remote :: remotes))
    with ([Render; Trigger; Settle remote] ++ loads remotes).
  cbv zeta. rewrite run_app.
  pose proof Hlf as (Hids & _ & _ & _ & _ & Hflag).
  destruct (load_round ids remote c Hr Hids Hlock Hin Hflag)
    as (Hlock' & Hin' & Hcursor).
  destruct (run_loaded_from start ids [Render; Trigger; Settle remote] c Hnd)
    as [Hlf' _]; [|apply (triggers_rendered_loads [remote])| by left |done|].
  { repeat constructor. exact Hkr. }
  destruct (IH Hkeyed (S k) _ Hlf' Hlock' Hin') as [Hlf'' Hk''].
  { unfold BATCH_SIZE in *. lia. }
  split; [done|]. cbn [length].
  replace (k + S (length remotes)) with (S k + length remotes) by lia. done.
Qed.

(** * Properties of the rest of [App] *)

(** ** Enumerating the ids *)

Lemma strings_of_array_of_list (l : list string) :
  strings_of_array (JsArray.of_list l) = Some l.
Proof. unfold strings_of_array, JsArray.of_list. by apply mapM_fmap_Some. Qed.

Lemma fetchAllPhotoIds_resume_order (random : nat → Q)
    (docs : list DocumentSnapshot) (c : Component) :
  (∀ k, unit_interval (random k)) →
  ∃ order,
    fetchAllPhotoIds_resume random (Some docs) c =
      Some (setLoading false (setShuffledPhotoIds order c)) ∧
    order ≡ₚ d_id <$> docs.
Proof.
  intros Hrange.
  exists (fisher_yates (drawn random (length (d_id <$> docs))) (d_id <$> docs)).
  split; [|apply fisher_yates_down_perm].
  unfold fetchAllPhotoIds_resume.
  rewrite shuffleArray_fisher_yates by done.
  by rewrite strings_of_array_of_list.
Qed.

(** X10.  When the enumeration resolves, the order stored is a permutation
    of the document ids (free of duplicates when the ids are), the
    indicator is switched off, and nothing else of the component changes.
    When it rejects, nothing changes at all: the indicator switched on by
    [fetchAllPhotoIds] stays on and no order is stored. *)
Theorem fetchAllPhotoIds_stores_a_permutation (random : nat → Q)
    (docs : list DocumentSnapshot) (c : Component) :
  (∀ k, unit_interval (random k)) →
  (∃ order,
     fetchAllPhotoIds_resume random (Some docs) c =
       Some (setLoading false (setShuffledPhotoIds order c)) ∧
     order ≡ₚ d_id <$> docs ∧
     (NoDup (d_id <$> docs) → NoDup order)) ∧
  (∀ c', fetchAllPhotoIds_resume random (Some docs) c = Some c' →
     loading (state c') = false ∧
     photos (state c') = photos (state c) ∧
     currentIndex (state c') = currentIndex (state c) ∧
     allLoaded (state c') = allLoaded (state c) ∧
     loadingRef (state c') = loadingRef (state c) ∧
     inflight c' = inflight c ∧ fanouts c' = fanouts c ∧
     errors c' = errors c ∧ callback c' = callback c) ∧
  fetchAllPhotoIds_resume random None (fetchAllPhotoIds c) =
    Some (fetchAllPhotoIds c) ∧
  loading (state (fetchAllPhotoIds c)) = true ∧
  shuffledPhotoIds (state (fetchAllPhotoIds c)) = shuffledPhotoIds (state c).
Proof.
  intros Hrange.
  set (order := fisher_yates (drawn random (length (d_id <$> docs))) (d_id <$> docs)).
  assert (fetchAllPhotoIds_resume random (Some docs) c =
          Some (setLoading false (setShuffledPhotoIds order c))) as Hres.
  { unfold fetchAllPhotoIds_resume.
    rewrite shuffleArray_fisher_yates by done.
    by rewrite strings_of_array_of_list. }
  assert (order ≡ₚ d_id <$> docs) as Hperm
    by apply fisher_yates_down_perm.
  split; [|split; [|done]].
  - exists order. split; [done|]. split; [done|].
    intros Hnd. by rewrite Hperm.
  - intros c'. rewrite Hres. by intros [= <-].
Qed.

Lemma fetchAllPhotoIds_stores_a_permutation_witness :
  let docs := [ {| d_id := "a"; d_data := None |};
                {| d_id := "b"; d_data := None |};
                {| d_id := "c"; d_data := None |} ]%string in
  ∃ order,
    fetchAllPhotoIds_resume (λ _, 1 # 2) (Some docs) mounted =
      Some (setLoading false (setShuffledPhotoIds order mounted)) ∧
    order ≡ₚ ["a"; "b"; "c"]%string.
Proof.
  intros docs.
  assert (∀ k : nat, unit_interval (1 # 2)) as Hrange.
  { intros _. split; [discriminate | reflexivity]. }
  destruct (fetchAllPhotoIds_stores_a_permutation (λ _, 1 # 2) docs mounted
              Hrange) as [(order & Hres & Hperm & _) _].
  exists order. split; [exact Hres | exact Hperm].
Defined.

(** ** A trigger before the ids arrive *)

Lemma run_lock_inflight events c :
  lock_inflight c → lock_inflight (run events c).
Proof.
  revert c. induction events as [|e events IH]; intros c Hc; [done|].
  simpl. by apply IH, lock_inflight_step.
Qed.

Lemma slice_elem_of {A} (l : list A) a b x :
  x ∈ slice a b l → ∃ j, a ≤ j ∧ l !! j = Some x.
Proof.
  unfold slice. intros Hx.
  assert (x ∈ drop a l) as Hd.
  { eapply elem_of_sublist; [exact Hx | apply sublist_take]. }
  apply list_elem_of_lookup in Hd as [j Hj].
  rewrite lookup_drop in Hj. exists (a + j). split; [lia | done].
Qed.

(** X11.  Calls made while the enumeration is pending complete on the
    empty order and advance the cursor.  If [n] of them have completed
    when the ids arrive, the gallery is loaded from position [12 * n] of
    the order: [photos] is the records of the ids from there up to the
    cursor, and the first [12 * n] ids are never loaded, whatever comes
    after (through rendered callbacks). *)
Theorem early_triggers_skip_windows (random : nat → Q)
    (docs : list DocumentSnapshot) (remotes : list Remote)
    (c2 : Component) (events : list Event) :
  (∀ k, unit_interval (random k)) → NoDup (d_id <$> docs) →
  fetchAllPhotoIds_resume random (Some docs)
    (run (rounds remotes) mounted) = Some c2 →
  Forall keyed_by_document events → triggers_rendered events c2 →
  let order := shuffledPhotoIds (state c2) in
  let skipped := BATCH_SIZE * length remotes in
  let c3 := run events c2 in
  photo_id <$> photos (state c3) =
    (Some ∘ VStr) <$> slice skipped (currentIndex (state c3)) order ∧
  (∀ i id, i < skipped → order !! i = Some id →
     Some (VStr id) ∉ photo_id <$> photos (state c3)).
Proof.
  intros Hrange Hnd Hres Hkeyed Hfresh. cbv zeta.
  assert (empty_order mounted) as Hempty.
  { unfold empty_order. simpl. repeat split; constructor. }
  destruct (run_empty_order (rounds remotes) _ Hempty)
    as (_ & _ & Hflag1 & _ & Hphotos1 & _).
  destruct (successes_rounds remotes _ Hempty eq_refl eq_refl) as [Hn Hlock1].
  assert (inflight (run (rounds remotes) mounted) = []) as Hin1.
  { destruct (run_lock_inflight (rounds remotes) mounted) as [[_ ?]|[Hl _]];
      [by left | done | congruence]. }
  assert (currentIndex (state (run (rounds remotes) mounted)) =
          BATCH_SIZE * length remotes) as Hcursor1.
  { rewrite run_currentIndex, Hn. done. }
  clear Hn Hempty.
  remember (run (rounds remotes) mounted) as c1 eqn:Hc1. clear Hc1.
  destruct (fetchAllPhotoIds_resume_order random docs c1 Hrange)
    as (order & Hres' & Hperm).
  rewrite Hres' in Hres. injection Hres as <-.
  assert (NoDup order) as Hndo by (by rewrite Hperm).
  change (shuffledPhotoIds (state (setLoading false (setShuffledPhotoIds order c1))))
    with order in *.
  destruct (run_loaded_from (BATCH_SIZE * length remotes) order events
              (setLoading false (setShuffledPhotoIds order c1)) Hndo Hkeyed Hfresh)
    as [(_ & _ & Hpids & _) _].
  { left. simpl. done. }
  { unfold loaded_from. simpl.
    rewrite Hcursor1, Hphotos1, Hin1, Hflag1.
    unfold slice. rewrite Nat.sub_diag. simpl.
    repeat split; try done; constructor. }
  split; [done|].
  intros i id Hi Hid. rewrite Hpids.
  intros (id' & [= <-] & Hin)%list_elem_of_fmap.
  apply slice_elem_of in Hin as (j & Hj & Hjid).
  pose proof (NoDup_lookup _ _ _ _ Hndo Hid Hjid). lia.
Qed.

Lemma early_triggers_skip_windows_witness :
  let docs := (λ n, {| d_id := String (Ascii.ascii_of_nat (65 + n)) EmptyString;
                       d_data := None |}) <$> seq 0 14 in
  let ok : Remote := λ _, Some (Some ∅) in
  let c1 := run (rounds [ok]) mounted in
  let c2 := default c1 (fetchAllPhotoIds_resume (λ _, 0%Q) (Some docs) c1) in
  let c3 := run [Render; Trigger; Settle ok] c2 in
  length (photos (state c3)) = 2 ∧ currentIndex (state c3) = 24.
Proof.
  intros docs ok c1 c2 c3.
  assert (∀ k : nat, unit_interval 0%Q) as Hrange.
  { intros _. split; [discriminate | reflexivity]. }
  assert (NoDup (d_id <$> docs)) as Hnd.
  { apply (bool_decide_unpack _). vm_compute. reflexivity. }
  assert (fetchAllPhotoIds_resume (λ _, 0%Q) (Some docs) c1 = Some c2) as Hres
    by (vm_compute; reflexivity).
  assert (Forall keyed_by_document [Render; Trigger; Settle ok]) as Hkeyed.
  { repeat constructor; intros id data [= <-]; vm_compute; reflexivity. }
  assert (triggers_rendered [Render; Trigger; Settle ok] c2) as Hfresh.
  { vm_compute. repeat split; intros; discriminate. }
  destruct (early_triggers_skip_windows (λ _, 0%Q) docs [ok] c2
              [Render; Trigger; Settle ok] Hrange Hnd Hres Hkeyed Hfresh)
    as [Hpids _].
  split; [|vm_compute; reflexivity].
  rewrite <- (length_fmap photo_id). fold c3 in Hpids. rewrite Hpids.
  vm_compute. reflexivity.
Defined.

(** ** The application as a whole *)

Lemma consistent_render enumerating c :
  consistent enumerating c → consistent enumerating (step Render c).
Proof.
  intros (Hli & Henum & Hflag). unfold consistent. simpl.
  split; [done|]. split.
  - intros He. destruct (Henum He) as [Hs _]. done.
  - intros Hall. destruct (Hflag Hall) as (? & ? & ? & _). auto.
Qed.

Lemma consistent_trigger enumerating c :
  consistent enumerating c → consistent enumerating (step Trigger c).
Proof.
  intros Hc. pose proof Hc as (Hli & Henum & Hflag). cbn [step].
  unfold fetchPhotoBatch.
  destruct (loadingRef (state c)) eqn:Hlock; [done|]. cbn [orb].
  destruct (cl_allLoaded (callback c)) eqn:Hcl; [done|].
  assert (inflight c = []) as Hin.
  { destruct Hli as [[_ ?]|[? _]]; [done|congruence]. }
  destruct (exhausted (callback c)) eqn:Hex.
  - assert (enumerating = false) as ->.
    { destruct enumerating; [|done].
      destruct (Henum eq_refl) as [_ Hnil].
      apply exhausted_spec in Hex as [_ Hne]. done. }
    unfold consistent. simpl.
    split; [by left|]. split; [done|]. intros _. auto.
  - unfold consistent. simpl.
    split; [right; simpl; rewrite Hin; eauto|]. split; [done|].
    intros Hall. destruct (Hflag Hall) as (_ & _ & _ & [?|?]); congruence.
Qed.

Lemma consistent_settle enumerating remote c :
  consistent enumerating c → consistent enumerating (step (Settle remote) c).
Proof.
  intros Hc. pose proof Hc as (Hli & Henum & Hflag).
  split; [by apply lock_inflight_step|].
  cbn [step]. destruct (inflight c) as [|p rest] eqn:Hin; [done|].
  assert (allLoaded (state c) = false) as Hall.
  { destruct (allLoaded (state c)); [|done].
    destruct (Hflag eq_refl) as (_ & Hlock & _).
    destruct Hli as [[_ ?]|[? _]]; congruence. }
  pose proof (fetchPhotoBatch_resume_frame p remote
    {| state := state c; inflight := rest; fanouts := fanouts c;
       errors := errors c; callback := callback c |}) as Hfr.
  simpl in Hfr. destruct Hfr as (Hs & Ha & _ & _ & _ & _ & Hcb).
  rewrite Hs, Ha, Hcb, Hall. split; [done|]. discriminate.
Qed.

Lemma iter_handleCloseModal n a :
  component (Nat.iter n handleCloseModal a) = component a ∧
  enumerating (Nat.iter n handleCloseModal a) = enumerating a.
Proof. induction n as [|n IH]; [done|]. simpl. exact IH. Qed.

Lemma app_step_consistent e a :
  consistent (enumerating a) (component a) →
  consistent (enumerating (app_step e a)) (component (app_step e a)).
Proof.
  intros Hc. destruct e as [e|order| | |h t o|i|target]; simpl.
  - destruct e as [| |remote]; simpl.
    + by apply consistent_render.
    + by apply consistent_trigger.
    + by apply consistent_settle.
  - destruct (enumerating a) eqn:Hen; [|by rewrite Hen].
    destruct Hc as (Hli & _ & Hflag). unfold consistent. simpl.
    split; [done|]. split; [done|].
    intros Hall. destruct (Hflag Hall) as (_ & _ & ? & _). done.
  - destruct Hc as (Hli & _ & Hflag). unfold consistent. simpl.
    split; [done|]. split; [done|].
    intros Hall. destruct (Hflag Hall) as (? & ? & _ & ?). auto.
  - unfold firstBatchEffect.
    destruct (_ && _); [|done]. simpl. by apply consistent_trigger.
  - unfold handleScroll. destruct (near_bottom h t o); [|done].
    by apply consistent_trigger.
  - by destruct (photos (state (component a)) !! i).
  - destruct (Modal (selectedImage a)); [|done].
    by destruct (iter_handleCloseModal (click target) a) as [-> ->].
Qed.

Lemma app_run_consistent events a :
  consistent (enumerating a) (component a) →
  consistent (enumerating (app_run events a)) (component (app_run events a)).
Proof.
  revert a. induction events as [|e events IH]; intros a Ha; [done|].
  simpl. by apply IH, app_step_consistent.
Qed.

Lemma app_init_consistent : consistent (enumerating app_init) (component app_init).
Proof.
  unfold consistent. simpl. split; [by left|]. split; [done|]. discriminate.
Qed.

(** X12.  Whatever happens after mounting — renders, calls, settlements,
    the enumeration resolving or rejecting, scroll events, the first-batch
    effect, clicks — the view never shows "Loading..." and "End of
    gallery." together, and at most one call is in flight. *)
Theorem indicators_exclusive (events : list AppEvent) :
  let a := app_run events app_init in
  loadingIndicator (App_view a) && endOfGallery (App_view a) = false ∧
  length (inflight (component a)) ≤ 1.
Proof.
  cbv zeta.
  destruct (app_run_consistent events app_init app_init_consistent)
    as (Hli & _ & Hflag).
  split.
  - unfold App_view. cbn [loadingIndicator endOfGallery].
    destruct (allLoaded (state (component (app_run events app_init))));
      [|by rewrite andb_false_r].
    destruct (Hflag eq_refl) as (-> & _). done.
  - destruct Hli as [[_ ->]|[_ [p ->]]]; simpl; lia.
Qed.

(** ** Scroll events *)

Lemma scrolls_locked geometries a :
  loadingRef (state (component a)) = true →
  component (app_run (scrolls geometries) a) = component a.
Proof.
  revert a. induction geometries as [|g geometries IH]; intros a Hlock; [done|].
  cbn [scrolls fmap list_fmap app_run]. fold (scrolls geometries).
  assert (component (app_step (Scroll g.1.1 g.1.2 g.2) a) = component a) as Hsame.
  { simpl. unfold handleScroll. destruct (near_bottom _ _ _); [|done].
    simpl. apply fetchPhotoBatch_guarded. by left. }
  rewrite IH; [done|]. by rewrite Hsame.
Qed.

(** X13.  A scroll event that is not within 500 pixels of the bottom does
    nothing, and a burst of scroll events, however long and wherever on
    the page, fans out at most one window: after the first call that fans
    out, the remaining events of the burst leave the component as it is. *)
Theorem scroll_burst_fans_out_once (geometries : list (Q * Q * Q)) (a : App) :
  let a' := app_run (scrolls geometries) a in
  (fanouts (component a') = fanouts (component a) ∨
   ∃ window, fanouts (component a') = fanouts (component a) ++ [window]) ∧
  (∀ h t o, near_bottom h t o = false → app_step (Scroll h t o) a = a).
Proof.
  cbv zeta. split.
  - revert a. induction geometries as [|g geometries IH]; intros a; [by left|].
    cbn [scrolls fmap list_fmap app_run]. fold (scrolls geometries).
    set (a1 := app_step (Scroll g.1.1 g.1.2 g.2) a).
    destruct (decide (fanouts (component a1) = fanouts (component a)))
      as [Hsame|Hdiff].
    { rewrite <- Hsame. apply IH. }
    assert (loadingRef (state (component a1)) = true ∧
            fanouts (component a1) =
            fanouts (component a) ++ [nextBatchIds (callback (component a))])
      as [Hlock Hfan].
    { revert Hdiff. unfold a1. simpl. unfold handleScroll.
      destruct (near_bottom _ _ _); [|done]. simpl. unfold fetchPhotoBatch.
      destruct (loadingRef (state (component a)) || _); [done|].
      destruct (exhausted _); [done|]. done. }
    right. rewrite scrolls_locked by done. eauto.
  - intros h t o Hfar. simpl. unfold handleScroll, with_component.
    rewrite Hfar. by destruct a.
Qed.

Lemma scroll_burst_fans_out_once_witness :
  let a := app_run [IdsReady ["a"; "b"]%string; Loader Render] app_init in
  near_bottom 800 0 5000 = false ∧
  app_step (Scroll 800 0 5000) a = a ∧
  length (fanouts (component
            (app_run (scrolls [(800, 0, 900); (800, 5, 900); (800, 9, 900)]%Q) a)))
    ≤ 1.
Proof.
  intros a.
  assert (near_bottom 800 0 5000 = false) as Hfar by reflexivity.
  destruct (scroll_burst_fans_out_once
              [(800, 0, 900); (800, 5, 900); (800, 9, 900)]%Q a)
    as [Hburst Hnoop].
  split; [exact Hfar|]. split; [exact (Hnoop _ _ _ Hfar)|].
  destruct Hburst as [-> | [window ->]]; simpl; lia.
Defined.

(** ** The modal and the first batch *)

(** X14.  Clicking a photo opens the modal on its [url] when that is a
    non-empty value, and opens nothing when the record has no [url] or an
    empty one.  With the modal open, a click on the overlay or on the close
    button closes it, calling [onClose] once; a click on the image or on
    the content box leaves everything as it is.  None of these clicks
    touches the loader. *)
Theorem modal_opens_and_closes (a : App) (i : nat) (photo : Obj)
    (target : ModalNode) :
  photos (state (component a)) !! i = Some photo →
  let opened := app_step (ClickPhoto i) a in
  let clicked := app_step (ClickModal target) opened in
  modal (App_view opened) =
    (if truthy (photo !! "url"%string) then photo !! "url"%string else None) ∧
  component opened = component a ∧
  component clicked = component a ∧
  (truthy (photo !! "url"%string) = true →
   (target = Overlay ∨ target = CloseButton →
    click target = 1 ∧ modal (App_view clicked) = None) ∧
   (target = Content ∨ target = Image →
    click target = 0 ∧ clicked = opened)) ∧
  (∀ depth, 3 ≤ depth → bubble depth target = click target).
Proof.
  intros Hphoto. cbv zeta. cbn [app_step]. rewrite Hphoto.
  unfold handleImageClick, setSelectedImage, App_view.
  cbn [modal selectedImage component].
  split; [done|]. split; [done|].
  assert (∀ depth, 3 ≤ depth → bubble depth target = click target) as Hdepth.
  { intros [|[|[|depth]]] Hdepth; try lia. by destruct target. }
  unfold Modal.
  destruct (photo !! "url"%string) as [v|];
    [|split; [done|split; [discriminate|done]]].
  destruct (truthy (Some v)) eqn:Htruthy;
    [|split; [done|split; [discriminate|done]]].
  split.
  { by destruct (iter_handleCloseModal (click target)
      {| component := component a; enumerating := enumerating a;
         rendered_photos_length := rendered_photos_length a;
         selectedImage := Some v |}) as [-> _]. }
  split; [|done].
  intros _. split; intros [-> | ->]; done.
Qed.

Lemma modal_opens_and_closes_witness :
  let photo : Obj := {["url"%string := VStr "u1"]} in
  let a := {| component := setPhotos (λ _, [photo]) (init ["a"%string]);
              enumerating := false; rendered_photos_length := 1;
              selectedImage := None |} in
  modal (App_view (app_step (ClickPhoto 0) a)) = Some (VStr "u1") ∧
  modal (App_view (app_run [ClickPhoto 0; ClickModal Image] a)) =
    Some (VStr "u1") ∧
  modal (App_view (app_run [ClickPhoto 0; ClickModal CloseButton] a)) = None.
Proof.
  intros photo a.
  destruct (modal_opens_and_closes a 0 photo Image eq_refl)
    as (Hopen & _ & _ & Hclick & _).
  destruct (Hclick eq_refl) as [_ Hinside].
  destruct (Hinside (or_intror eq_refl)) as [_ Hsame].
  destruct (modal_opens_and_closes a 0 photo CloseButton eq_refl)
    as (_ & _ & _ & Hclick' & _).
  destruct (Hclick' eq_refl) as [Hclose _].
  destruct (Hclose (or_intror eq_refl)) as [_ Hclosed].
  split; [exact Hopen|]. split; [|exact Hclosed].
  cbn [app_run]. rewrite Hsame. exact Hopen.
Defined.

(** X15.  On the undisturbed path — the enumeration resolves with a
    non-empty order, React renders, the first-batch effect runs — the
    effect requests the first window of the order and nothing else; with an
    empty order it requests nothing and the cursor stays at 0. *)
Theorem first_batch_effect_loads_first_window (order : list string) :
  let a := app_run [IdsReady order; Loader Render; FirstBatchEffect] app_init in
  currentIndex (state (component a)) = 0 ∧
  loading (state (component a)) = negb (bool_decide (order = [])) ∧
  fanouts (component a) =
    (if decide (order = []) then [] else [take BATCH_SIZE order]) ∧
  length (inflight (component a)) = length (fanouts (component a)).
Proof.
  cbv zeta. destruct order as [|id order].
  - by vm_compute.
  - cbn [app_run app_step]. unfold firstBatchEffect. simpl.
    unfold fetchPhotoBatch. simpl. repeat split.
Qed.

(** * The shuffler in double precision *)

Section binary64_facts.
Local Open Scope Q_scope.


Lemma round_half_even_lt (q : Q) (M : Z) :
  q < inject_Z M - (1 # 2) → (Binary64.round_half_even q < M)%Z.
Proof.
  intros Hq. pose proof (Qfloor_le q) as Hfl.
  unfold Binary64.round_half_even.
  destruct (Qcompare_spec (q - inject_Z (Qfloor q)) (1 # 2)) as [He|Hl|Hg].
  - assert (inject_Z (Qfloor q + 1) < inject_Z M) as Hlt.
    { rewrite inject_Z_plus. change (inject_Z 1) with 1. lra. }
    rewrite <- Zlt_Qlt in Hlt. destruct (Z.even (Qfloor q)); lia.
  - assert (inject_Z (Qfloor q) < inject_Z M) as Hlt by lra.
    by rewrite <- Zlt_Qlt in Hlt.
  - assert (inject_Z (Qfloor q + 1) < inject_Z M) as Hlt.
    { rewrite inject_Z_plus. change (inject_Z 1) with 1. lra. }
    by rewrite <- Zlt_Qlt in Hlt.
Qed.

Lemma ilog2_lower (x : Q) :
  0 < x → (0 <= Binary64.ilog2 x)%Z → inject_Z (2 ^ Binary64.ilog2 x) <= x.
Proof.
  intros Hx. destruct x as [a b]. unfold Binary64.ilog2. cbn [Qnum Qden].
  assert (0 < a)%Z as Ha.
  { unfold Qlt in Hx. simpl in Hx. lia. }
  set (d := (Z.log2 a - Z.log2 (Z.pos b))%Z).
  destruct (Z.leb_spec (Z.pos b * 2 ^ Z.max d 0) (a * 2 ^ Z.max (- d) 0))
    as [Htest|Htest]; intros Hk.
  - rewrite Z.max_l in Htest by lia. rewrite (Z.max_r (- d)) in Htest by lia.
    unfold Qle. cbn [Qnum Qden inject_Z]. lia.
  - assert (1 <= d)%Z as Hd by lia.
    pose proof (Z.log2_spec a Ha) as [Hla _].
    pose proof (Z.log2_spec (Z.pos b) ltac:(lia)) as [_ Hlb].
    pose proof (Z.log2_nonneg (Z.pos b)) as Hlb0.
    unfold Qle. cbn [Qnum Qden inject_Z].
    assert (2 ^ Z.log2 a = 2 ^ (d - 1) * 2 ^ Z.succ (Z.log2 (Z.pos b)))%Z as Heq.
    { rewrite <- Z.pow_add_r by lia. f_equal. lia. }
    assert (0 < 2 ^ (d - 1))%Z by (apply Z.pow_pos_nonneg; lia).
    nia.
Qed.

Lemma exponent_nonpos (x : Q) :
  0 < x → x < inject_Z (2 ^ 53) →
  (Z.max (Binary64.ilog2 x - 52) (-1074) <= 0)%Z.
Proof.
  intros Hx Hlt. destruct (Z.le_gt_cases (Binary64.ilog2 x) 52) as [|Hk]; [lia|].
  exfalso. pose proof (ilog2_lower x Hx ltac:(lia)) as Hlow.
  assert (2 ^ 53 <= 2 ^ Binary64.ilog2 x)%Z as Hpow by (apply Z.pow_le_mono_r; lia).
  rewrite Zle_Qle in Hpow. lra.
Qed.

Lemma round_positive_nonpos_exponent (x : Q) :
  0 < x → x < inject_Z (2 ^ 53) →
  let s := (- Z.max (Binary64.ilog2 x - 52) (-1074))%Z in
  (0 <= s)%Z ∧
  Binary64.round_positive x =
  inject_Z (Binary64.round_half_even (x * inject_Z (2 ^ s))) / inject_Z (2 ^ s).
Proof.
  intros Hx Hlt s. pose proof (exponent_nonpos x Hx Hlt) as He.
  split; [lia|]. unfold Binary64.round_positive.
  destruct (Z.leb_spec (Z.max (Binary64.ilog2 x - 52) (-1074)) 0); [done|lia].
Qed.

Lemma pow2_pos (s : Z) : (0 <= s)%Z → 0 < inject_Z (2 ^ s).
Proof.
  intros Hs. change 0 with (inject_Z 0). rewrite <- Zlt_Qlt.
  by apply Z.pow_pos_nonneg.
Qed.

(** A product that stays a relative [2^-53] below the integer [N] rounds
    below [N]. *)
Lemma round_positive_lt (x : Q) (N : Z) :
  0 < x → (N <= 2 ^ 53)%Z →
  x <= inject_Z N * (1 - (1 # 2 ^ 53)) →
  Binary64.round_positive x < inject_Z N.
Proof.
  intros Hx HN Hle.
  change (1 # 2 ^ 53) with (1 # 9007199254740992) in Hle.
  assert (x < inject_Z N) as HxN.
  { destruct (Qlt_le_dec 0 (inject_Z N)); lra. }
  assert (1 <= N)%Z as HN1.
  { assert (inject_Z 0 < inject_Z N) as H0 by (change (inject_Z 0) with 0; lra).
    rewrite <- Zlt_Qlt in H0. lia. }
  assert (x < inject_Z (2 ^ 53)) as Hx53.
  { rewrite Zle_Qle in HN. lra. }
  destruct (round_positive_nonpos_exponent x Hx Hx53) as [Hs ->].
  set (s := (- Z.max (Binary64.ilog2 x - 52) (-1074))%Z) in *.
  pose proof (pow2_pos s Hs) as HP.
  assert (2 ^ 53 < N * 2 ^ (s + 1))%Z as Hbig.
  { destruct (Z.le_gt_cases 54 (s + 1)) as [Hs54|Hs54].
    - assert (2 ^ 54 <= 2 ^ (s + 1))%Z by (apply Z.pow_le_mono_r; lia).
      assert (2 ^ 53 < 2 ^ 54)%Z by (apply Z.pow_lt_mono_r; lia). nia.
    - assert (s = 52 - Binary64.ilog2 x)%Z as Hsk by lia.
      assert (0 <= Binary64.ilog2 x)%Z as Hk by lia.
      pose proof (ilog2_lower x Hx Hk) as Hlow.
      assert (inject_Z (2 ^ Binary64.ilog2 x) < inject_Z N) as HkN by lra.
      rewrite <- Zlt_Qlt in HkN.
      replace 53%Z with (Binary64.ilog2 x + (s + 1))%Z at 1 by lia.
      rewrite Z.pow_add_r by lia.
      assert (0 < 2 ^ (s + 1))%Z by (apply Z.pow_pos_nonneg; lia). nia. }
  rewrite Z.pow_add_r, Z.pow_1_r in Hbig by lia.
  rewrite Zlt_Qlt, !inject_Z_mult in Hbig.
  change (inject_Z (2 ^ 53)) with 9007199254740992 in Hbig.
  change (inject_Z 2) with 2 in Hbig.
  assert (Binary64.round_half_even (x * inject_Z (2 ^ s)) < N * 2 ^ s)%Z as Hm.
  { apply round_half_even_lt. rewrite inject_Z_mult.
    pose proof (Qmult_le_compat_r _ _ (inject_Z (2 ^ s)) Hle ltac:(lra)). lra. }
  apply Qlt_shift_div_r; [done|].
  rewrite Zlt_Qlt, inject_Z_mult in Hm. done.
Qed.


Lemma binary64_round_lt (x : Q) (N : Z) :
  0 <= x → (1 <= N <= 2 ^ 53)%Z →
  x <= inject_Z N * (1 - (1 # 2 ^ 53)) →
  Binary64.round x < inject_Z N.
Proof.
  intros Hx HN Hle. unfold Binary64.round.
  destruct (Qcompare_spec x 0) as [Hz|Hneg|Hpos].
  - change 0 with (inject_Z 0). rewrite <- Zlt_Qlt. lia.
  - lra.
  - apply round_positive_lt; [done|lia|done].
Qed.

End binary64_facts.

Section binary64_shuffle.
Local Open Scope Q_scope.

Lemma scaled_double_bounds (r : Q) (n : nat) :
  double_unit r →
  0 <= r * inject_Z (Z.of_nat n) ∧
  r * inject_Z (Z.of_nat n) <=
    inject_Z (Z.of_nat n) * (1 - (1 # 2 ^ 53)).
Proof.
  intros [Hr0 Hr1].
  assert (0 <= inject_Z (Z.of_nat n)) as Hn.
  { change 0 with (inject_Z 0). rewrite <- Zle_Qle. lia. }
  split; [by apply Qmult_le_0_compat|].
  pose proof (Qmult_le_compat_r _ _ _ Hr1 Hn). lra.
Qed.


(** The index drawn in double precision lies inside the prefix. *)
Lemma randomIndex_binary64_lt (r : Q) (n : nat) :
  double_unit r → (0 < n)%nat → (Z.of_nat n <= 2 ^ 53)%Z →
  (Binary64.randomIndex r n < n)%nat.
Proof.
  intros Hr Hn Hn53. destruct (scaled_double_bounds r n Hr) as [Hlo Hhi].
  pose proof (binary64_round_lt _ (Z.of_nat n) Hlo ltac:(lia) Hhi) as Hlt.
  unfold Binary64.randomIndex.
  pose proof (Qfloor_le (Binary64.round (r * inject_Z (Z.of_nat n)))) as Hfl.
  assert (Qfloor (Binary64.round (r * inject_Z (Z.of_nat n))) < Z.of_nat n)%Z.
  { rewrite Zlt_Qlt. lra. }
  lia.
Qed.

End binary64_shuffle.

Section binary64_loop.
Context {A : Type}.
Variable random : nat → Q.
Hypothesis random_range : ∀ k, double_unit (random k).

Lemma shuffle_loop_binary64 n i calls (l : list A) :
  (Z.of_nat (length l) <= 2 ^ 53)%Z →
  i < length l → calls + i = n - 1 →
  Binary64.shuffle_loop random calls (S i) (JsArray.of_list l) =
  JsArray.of_list (fisher_yates_down (Binary64.drawn random n) i l).
Proof.
  revert calls l. induction i as [|i IH]; intros calls l Hlen Hi Hcalls.
  - cbn [Binary64.shuffle_loop fisher_yates_down].
    pose proof (randomIndex_binary64_lt (random calls) 1 (random_range _)
                  ltac:(lia) ltac:(lia)).
    replace (Binary64.randomIndex (random calls) 1) with 0 by lia.
    rewrite swap_of_list by done. by rewrite swap_elements_same.
  - cbn [Binary64.shuffle_loop fisher_yates_down].
    pose proof (randomIndex_binary64_lt (random calls) (S (S i))
                  (random_range _) ltac:(lia) ltac:(lia)) as Hlt.
    assert (Binary64.drawn random n (S i) =
            Binary64.randomIndex (random calls) (S (S i))) as ->.
    { unfold Binary64.drawn. f_equal; [f_equal|]; lia. }
    rewrite swap_of_list by lia.
    apply IH; rewrite ?swap_elements_length; lia.
Qed.

Lemma shuffleArray_binary64 (l : list A) :
  (Z.of_nat (length l) <= 2 ^ 53)%Z →
  Binary64.shuffleArray random (JsArray.of_list l) =
  JsArray.of_list (fisher_yates (Binary64.drawn random (length l)) l).
Proof.
  intros Hlen. unfold Binary64.shuffleArray, fisher_yates, JsArray.of_list at 1.
  rewrite length_fmap.
  destruct l as [|x l]; [done|].
  cbn [length] in *. replace (S (length l) - 1) with (length l) by lia.
  apply shuffle_loop_binary64; simpl; lia.
Qed.
End binary64_loop.



(** The draw on which the exact product and the rounded one part: the
    double nearest to 1/3, times 3, is [1 - 2^-54] exactly and [1] once
    rounded. *)
Example rounding_moves_a_draw :
  let third := (6004799503160661 # 18014398509481984)%Q in
  Binary64.round (1 # 3) = third ∧
  Binary64.randomIndex third 3 = 1 ∧
  randomIndex third 3 = 0 ∧
  Binary64.shuffleArray (λ _, third) (JsArray.of_list [1; 2; 3]) =
    JsArray.of_list [3; 1; 2].
Proof. vm_compute. repeat split. Qed.

(** Every result of the shuffle in double precision is a result of the
    shuffle with exact products, on other draws: what is proved of
    [shuffleArray] for all sequences of draws in [0, 1) holds of the
    results the code computes. *)
Lemma shuffleArray_binary64_exact {A} (random : nat → Q) (l : list A) :
  (∀ k, double_unit (random k)) →
  (Z.of_nat (length l) <= 2 ^ 53)%Z →
  ∃ random', (∀ k, unit_interval (random' k)) ∧
    Binary64.shuffleArray random (JsArray.of_list l) =
    shuffleArray random' (JsArray.of_list l).
Proof.
  intros Hrange Hlen.
  set (draw := λ i, i `min` Binary64.drawn random (length l) i).
  assert (∀ i, draw i ≤ i) as Hdraw by (intros i; unfold draw; lia).
  exists (draws_for draw (length l)).
  split; [intros k; by apply draws_for_range|].
  rewrite shuffleArray_binary64 by done.
  rewrite shuffleArray_fisher_yates by (intros; by apply draws_for_range).
  f_equal. destruct l as [|x l]; [done|].
  unfold fisher_yates. apply fisher_yates_down_ext.
  intros k Hk. cbn [length] in *.
  rewrite drawn_draws_for by lia. unfold draw, Binary64.drawn.
  pose proof (randomIndex_binary64_lt (random (S (length l) - 1 - k)) (k + 1)
                (Hrange _) ltac:(lia) ltac:(lia)). lia.
Qed.

(** * Sessions *)

(** ** A session as a run of the loader *)

Lemma app_step_enumerating e a :
  enumerating a = false → enumerating (app_step e a) = false.
Proof.
  intros Hen. destruct e as [e|order| | |h t o|i|target]; simpl.
  - by destruct e.
  - by rewrite Hen.
  - done.
  - unfold firstBatchEffect. by destruct (_ && _).
  - done.
  - by destruct (photos (state (component a)) !! i).
  - destruct (Modal (selectedImage a)); [|done].
    by destruct (iter_handleCloseModal (click target) a) as [_ ->].
Qed.

Lemma app_run_enumerating events a :
  enumerating a = false → enumerating (app_run events a) = false.
Proof.
  revert a. induction events as [|e events IH]; intros a Ha; [done|].
  simpl. by apply IH, app_step_enumerating.
Qed.

(** Apart from the enumeration storing the order, an application event
    acts on the component as its loader events do. *)
Lemma app_step_component e a :
  (enumerating a = false ∨ enumerating (app_step e a) = true) →
  component (app_step e a) = run (loader_events e a) (component a).
Proof.
  intros Hen. destruct e as [e|order| | |h t o|i|target]; simpl.
  - by destruct e.
  - destruct (enumerating a) eqn:Ha; [|done].
    destruct Hen as [|Hen]; [done|]. simpl in Hen. by rewrite Ha in Hen.
  - done.
  - unfold firstBatchEffect. by destruct (_ && _).
  - unfold handleScroll. by destruct (near_bottom h t o).
  - by destruct (photos (state (component a)) !! i).
  - destruct (Modal (selectedImage a)); [|done].
    by destruct (iter_handleCloseModal (click target) a) as [-> _].
Qed.

Lemma app_run_component events a :
  (enumerating a = false ∨ enumerating (app_run events a) = true) →
  component (app_run events a) = run (loader_trace events a) (component a).
Proof.
  revert a. induction events as [|e events IH]; intros a Hen; [done|].
  cbn [app_run loader_trace]. rewrite run_app.
  assert (enumerating a = false ∨ enumerating (app_step e a) = true) as Hstep.
  { destruct Hen as [|Hen]; [by left|]. cbn [app_run] in Hen.
    destruct (enumerating (app_step e a)) eqn:Hea; [by right|].
    by rewrite (app_run_enumerating events _ Hea) in Hen. }
  rewrite IH, app_step_component; [done|done|].
  destruct Hen as [Hen|Hen]; [left; by apply app_step_enumerating|by right].
Qed.

Lemma loader_trace_Loader events a :
  loader_trace (Loader <$> events) a = events.
Proof.
  revert a. induction events as [|e events IH]; intros a; [done|].
  cbn [fmap list_fmap loader_trace loader_events]. fold (Loader <$> events).
  by rewrite IH.
Qed.

(** The component the order is stored in: reached from [mounted] by loader
    events on the empty order, the lock following the calls in flight. *)
Lemma before_the_order events a1 :
  a1 = app_run events app_init → enumerating a1 = true →
  empty_order (component a1) ∧ lock_inflight (component a1).
Proof.
  intros -> Hen. rewrite app_run_component by (by right). split.
  - apply run_empty_order. unfold empty_order. simpl. repeat split; constructor.
  - apply run_lock_inflight. by left.
Qed.

(** ** The cursor in a session *)

Lemma app_step_currentIndex e a :
  currentIndex (state (component (app_step e a))) =
  currentIndex (state (component a)) +
  (if app_succeeds e a then BATCH_SIZE else 0).
Proof.
  destruct e as [e|order| | |h t o|i|target]; simpl.
  - destruct e as [| |remote]; [simpl; lia|apply (step_currentIndex Trigger)|
                                apply (step_currentIndex (Settle remote))].
  - destruct (enumerating a); simpl; lia.
  - lia.
  - unfold firstBatchEffect. destruct (_ && _); [|lia].
    apply (step_currentIndex Trigger).
  - unfold handleScroll. destruct (near_bottom h t o); [|lia].
    apply (step_currentIndex Trigger).
  - destruct (photos (state (component a)) !! i); simpl; lia.
  - destruct (Modal (selectedImage a)); [|lia].
    destruct (iter_handleCloseModal (click target) a) as [-> _]. lia.
Qed.

Lemma app_run_currentIndex events a :
  currentIndex (state (component (app_run events a))) =
  currentIndex (state (component a)) + BATCH_SIZE * app_successes events a.
Proof.
  revert a. induction events as [|e events IH]; intros a;
    cbn [app_run app_successes]; [lia|].
  rewrite IH, app_step_currentIndex. unfold BATCH_SIZE.
  destruct (app_succeeds e a); lia.
Qed.

Lemma cursor_within_step bound ids e c :
  ids ≠ [] → cursor_cap (length ids) ≤ bound →
  (e = Trigger → callback c = render (state c)) →
  lock_inflight c → cursor_within bound ids c →
  cursor_within bound ids (step e c).
Proof.
  intros Hne Hcap Hfresh Hli (Hids & Hdiv & Hbound).
  unfold cursor_within, start_position in *.
  rewrite step_shuffledPhotoIds, step_currentIndex.
  split; [done|].
  destruct e as [| |remote]; cbn [step succeeds].
  - rewrite Nat.add_0_r. done.
  - rewrite Nat.add_0_r. split; [done|].
    specialize (Hfresh eq_refl). rewrite Hfresh.
    unfold fetchPhotoBatch. cbn [render cl_allLoaded].
    destruct Hli as [[Hlock Hin]|[Hlock _]]; rewrite Hlock; [|done].
    cbn [orb]. destruct (allLoaded (state c)); [done|].
    destruct (exhausted (render (state c))) eqn:Hex; [done|].
    simpl. rewrite Hin. simpl.
    assert (currentIndex (state c) < length ids) as Hlt.
    { subst ids. apply (nextBatchIds_nonempty (render (state c))).
      intros Hnil. apply not_true_iff_false in Hex. apply Hex.
      by apply exhausted_spec. }
    pose proof (next_window_within_cap _ _ Hdiv Hlt).
    unfold BATCH_SIZE in *. lia.
  - destruct Hli as [[_ Hin]|[_ [p Hin]]]; rewrite Hin in *.
    + rewrite Nat.add_0_r, Hin. done.
    + pose proof (fetchPhotoBatch_resume_frame p remote
        {| state := state c; inflight := []; fanouts := fanouts c;
           errors := errors c; callback := callback c |}) as Hfr.
      simpl in Hfr. destruct Hfr as (_ & _ & _ & _ & -> & _).
      simpl in Hbound. case_bool_decide.
      * split; [by apply Nat.divide_add_r|]. simpl. unfold BATCH_SIZE in *. lia.
      * rewrite Nat.add_0_r. split; [done|]. simpl. unfold BATCH_SIZE in *. lia.
Qed.

Lemma run_cursor_within bound ids events c :
  ids ≠ [] → cursor_cap (length ids) ≤ bound →
  triggers_rendered events c →
  lock_inflight c → cursor_within bound ids c →
  cursor_within bound ids (run events c).
Proof.
  intros Hne Hcap. revert c.
  induction events as [|e events IH]; intros c Hfresh Hli Hcw; [done|].
  destruct Hfresh as [Hhere Hrest]. simpl.
  apply IH; [done| |].
  - by apply lock_inflight_step.
  - by apply cursor_within_step.
Qed.

(** The three ways the bound of the specification fails, each on a
    session: the empty order, a call completed before the order is stored,
    a callback not yet re-rendered. *)
Example cursor_past_the_cap :
  let ok : Remote := λ _, Some (Some ∅) in
  let ids := ["a"; "b"; "c"; "d"; "e"]%string in
  let cursor events := currentIndex (state (component (app_run events app_init))) in
  cursor [IdsReady []; Loader Render; Loader Trigger; Loader (Settle ok)] = 12 ∧
  cursor_cap 0 = 0 ∧
  cursor [Scroll 800 0 0; Loader (Settle ok); Scroll 800 0 0; Loader (Settle ok);
          IdsReady ids; Loader Render; FirstBatchEffect] = 24 ∧
  cursor [IdsReady ids; Loader Render; Loader Trigger; Loader (Settle ok);
          Loader Trigger; Loader (Settle ok)] = 24 ∧
  cursor_cap 5 = 12.
Proof. vm_compute. repeat split. Qed.

(** C3, amended.  In every session the cursor is the window size times the
    number of successful batch loads.  When the order stored is not empty
    and every call made from then on runs the callback rendered from the
    current state, the cursor never exceeds the larger of
    [ceil(N / WINDOW) * WINDOW] and the position the calls made before the
    order was stored lead to (the cursor at that moment, plus one window
    for a call still in flight); without such calls that position is 0 and
    the bound is [ceil(N / WINDOW) * WINDOW]. *)
Theorem currentIndex_in_session (events events1 events2 : list AppEvent)
    (order : list string) :
  currentIndex (state (component (app_run events app_init))) =
    BATCH_SIZE * app_successes events app_init ∧
  (let a1 := app_run events1 app_init in
   let a2 := app_step (IdsReady order) a1 in
   let a3 := app_run events2 a2 in
   enumerating a1 = true → order ≠ [] →
   triggers_rendered (loader_trace events2 a2) (component a2) →
   currentIndex (state (component a3)) ≤
     cursor_cap (length order) `max` start_position (component a1) ∧
   (start_position (component a1) = 0 →
    currentIndex (state (component a3)) ≤ cursor_cap (length order))).
Proof.
  split; [apply app_run_currentIndex|].
  cbv zeta. intros Hen Hne Hfresh.
  destruct (before_the_order events1 _ eq_refl Hen) as [_ Hli].
  pose proof (app_run_currentIndex events1 app_init) as Hcursor.
  change (currentIndex (state (component app_init))) with 0 in Hcursor.
  set (a1 := app_run events1 app_init) in *.
  assert (component (app_step (IdsReady order) a1) =
          setLoading false (setShuffledPhotoIds order (component a1))) as Hc2
    by (simpl; by rewrite Hen).
  assert (enumerating (app_step (IdsReady order) a1) = false) as Hen2
    by (simpl; by rewrite Hen).
  rewrite app_run_component by (by left).
  assert (cursor_within
            (cursor_cap (length order) `max` start_position (component a1)) order
            (run (loader_trace events2 (app_step (IdsReady order) a1))
                 (component (app_step (IdsReady order) a1))))
    as (_ & _ & Hbound).
  { apply run_cursor_within; [done|lia|done| |].
    - rewrite Hc2. exact Hli.
    - rewrite Hc2. unfold cursor_within, start_position. simpl.
      split; [done|]. split; [|unfold start_position; lia].
      rewrite Hcursor. by apply Nat.divide_factor_l. }
  unfold start_position in Hbound at 1.
  split; [lia|]. intros Hzero. rewrite Hzero in Hbound. lia.
Qed.

Lemma currentIndex_in_session_witness :
  let ok : Remote := λ _, Some (Some ∅) in
  let order := ["a"; "b"; "c"; "d"; "e"]%string in
  let early := [Scroll 800 0 0; Loader (Settle ok)] in
  let later := [Loader Render; FirstBatchEffect; Loader (Settle ok);
                Loader Render; Scroll 800 0 0] in
  let a1 := app_run early app_init in
  let a3 := app_run later (app_step (IdsReady order) a1) in
  start_position (component a1) = 12 ∧
  currentIndex (state (component a3)) ≤ 12.
Proof.
  intros ok order early later a1 a3.
  assert (enumerating a1 = true) as Hen by reflexivity.
  assert (order ≠ []) as Hne by discriminate.
  assert (triggers_rendered
            (loader_trace later (app_step (IdsReady order) a1))
            (component (app_step (IdsReady order) a1))) as Hfresh.
  { vm_compute. repeat split; intros; discriminate. }
  destruct (currentIndex_in_session [] early later order) as [_ Hsession].
  destruct (Hsession Hen Hne Hfresh) as [Hbound _].
  split; [reflexivity|]. exact Hbound.
Defined.

(** ** Uniqueness of ids in a session *)

Lemma loader_events_keyed e a :
  session_keyed e → Forall keyed_by_document (loader_events e a).
Proof.
  intros He. destruct e as [e|order| | |h t o|i|target]; simpl;
    repeat case_match; repeat constructor. exact He.
Qed.

Lemma loader_trace_keyed events a :
  Forall session_keyed events → Forall keyed_by_document (loader_trace events a).
Proof.
  intros Hkeyed. revert a.
  induction Hkeyed as [|e events He _ IH]; intros a; [constructor|].
  cbn [loader_trace]. apply Forall_app. split; [by apply loader_events_keyed|].
  apply IH.
Qed.



(** The other condition of the amended claim: an id repeated in the order
    is loaded twice, from one window. *)
Example repeated_id_is_loaded_twice :
  let remote : Remote := λ _, Some (Some ∅) in
  let events := [IdsReady ["a"; "a"]%string; Loader Render; FirstBatchEffect;
                 Loader (Settle remote)] in
  photo_id <$> photos (state (component (app_run events app_init))) =
    [Some (VStr "a"); Some (VStr "a")].
Proof. vm_compute. reflexivity. Qed.



(** ** The gallery in a session *)

Lemma loaded_after_step start ids e c :
  NoDup ids → keyed_by_document e →
  (e = Trigger → callback c = render (state c)) →
  lock_inflight c → loaded_after start ids c →
  loaded_after start ids (step e c).
Proof.
  intros Hnd Hkeyed Hfresh Hli [Hearly|Hlf]; [|right; by apply loaded_from_step].
  destruct Hearly as (Hids & Hphotos & Hflag & Hstart & p & Hin & Hp).
  destruct e as [| |remote]; cbn [step].
  - left. simpl. eauto 10.
  - rewrite fetchPhotoBatch_guarded.
    + left. eauto 10.
    + left. destruct Hli as [[_ Hnil]|[Hlock _]]; [congruence|done].
  - rewrite Hin. right.
    unfold fetchPhotoBatch_resume. rewrite Hp. simpl.
    unfold_loader. unfold loaded_from. simpl.
    rewrite Hphotos. unfold mergePhotos, newPhotos, slice. simpl.
    rewrite Hstart, Nat.sub_diag, Hflag. simpl.
    repeat split; try done; constructor.
Qed.

Lemma run_loaded_after start ids events c :
  NoDup ids → Forall keyed_by_document events →
  triggers_rendered events c →
  lock_inflight c → loaded_after start ids c →
  loaded_after start ids (run events c) ∧ lock_inflight (run events c).
Proof.
  intros Hnd Hkeyed. revert c.
  induction Hkeyed as [|e events He _ IH]; intros c Hfresh Hli Hla; [done|].
  destruct Hfresh as [Hhere Hrest]. simpl.
  apply IH; [done| |].
  - by apply lock_inflight_step.
  - by apply loaded_after_step.
Qed.

(** The component in which the order has just been stored. *)
Lemma order_stored_loaded_after order c1 :
  empty_order c1 → lock_inflight c1 →
  loaded_after (start_position c1) order
    (setLoading false (setShuffledPhotoIds order c1)).
Proof.
  intros (_ & _ & Hflag & _ & Hphotos & Hflight) Hli.
  unfold start_position.
  destruct Hli as [[_ Hin]|[_ [p Hin]]]; rewrite Hin in *.
  - right. unfold loaded_from. simpl.
    rewrite Hphotos, Hin, Hflag, Nat.add_0_r.
    unfold slice. rewrite Nat.sub_diag. simpl.
    repeat split; try done; constructor.
  - left. rewrite Forall_singleton in Hflight. simpl.
    repeat (split; [done|]). eauto.
Qed.

Lemma session_loaded_after (events1 events2 : list AppEvent)
    (order : list string) :
  let a1 := app_run events1 app_init in
  let a2 := app_step (IdsReady order) a1 in
  let a3 := app_run events2 a2 in
  enumerating a1 = true → NoDup order → Forall session_keyed events2 →
  triggers_rendered (loader_trace events2 a2) (component a2) →
  loaded_after (start_position (component a1)) order (component a3).
Proof.
  cbv zeta. intros Hen Hnd Hkeyed Hfresh.
  destruct (before_the_order events1 _ eq_refl Hen) as [Hempty Hli].
  set (a1 := app_run events1 app_init) in *.
  assert (component (app_step (IdsReady order) a1) =
          setLoading false (setShuffledPhotoIds order (component a1))) as Hc2
    by (simpl; by rewrite Hen).
  assert (enumerating (app_step (IdsReady order) a1) = false) as Hen2
    by (simpl; by rewrite Hen).
  rewrite app_run_component by (by left).
  apply run_loaded_after; [done|by apply loader_trace_keyed|done| |].
  - rewrite Hc2. exact Hli.
  - rewrite Hc2. by apply order_stored_loaded_after.
Qed.

(** X6.  A session in which the order is stored once [events1] have taken
    place, [start] being the position the calls made until then lead to
    (the cursor at that moment, plus one window for a call still in
    flight; 0 when no call was made).  With an order without repeated ids,
    documents without an [id] field of their own and every later call made
    through the callback rendered from the current state, [photos] is at
    every moment the records of the ids at the positions from [start] to
    the cursor, in their order, and the record at position [k] of [photos]
    carries [index = start + k]; with [start = 0] these are the first ids
    of the order, up to the cursor. *)
Theorem photos_follow_the_order_in_session (events1 events2 : list AppEvent)
    (order : list string) :
  let a1 := app_run events1 app_init in
  let a2 := app_step (IdsReady order) a1 in
  let a3 := app_run events2 a2 in
  let start := start_position (component a1) in
  let cursor := currentIndex (state (component a3)) in
  let loaded := photos (state (component a3)) in
  enumerating a1 = true → NoDup order → Forall session_keyed events2 →
  triggers_rendered (loader_trace events2 a2) (component a2) →
  photo_id <$> loaded = (Some ∘ VStr) <$> slice start cursor order ∧
  photo_index <$> loaded =
    (λ k, Some (VNum (Z.of_nat k))) <$> seq start (length loaded) ∧
  (start = 0 → photo_id <$> loaded = (Some ∘ VStr) <$> take cursor order).
Proof.
  cbv zeta. intros Hen Hnd Hkeyed Hfresh.
  pose proof (session_loaded_after events1 events2 order Hen Hnd Hkeyed Hfresh)
    as Hla.
  assert (photo_id <$> photos (state (component (app_run events2
            (app_step (IdsReady order) (app_run events1 app_init))))) =
          (Some ∘ VStr) <$>
            slice (start_position (component (app_run events1 app_init)))
              (currentIndex (state (component (app_run events2
                 (app_step (IdsReady order) (app_run events1 app_init))))))
              order ∧
          photo_index <$> photos (state (component (app_run events2
            (app_step (IdsReady order) (app_run events1 app_init))))) =
          (λ k, Some (VNum (Z.of_nat k))) <$>
            seq (start_position (component (app_run events1 app_init)))
              (length (photos (state (component (app_run events2
                 (app_step (IdsReady order) (app_run events1 app_init))))))))
    as [Hpids Hpidx].
  { destruct Hla as [(_ & Hphotos & _ & Hstart & _)|(_ & _ & Hpids & Hpidx & _)];
      [|done].
    rewrite Hphotos, <- Hstart. unfold slice.
    replace (_ - _) with 0 by lia. done. }
  split; [done|]. split; [done|].
  intros Hzero. rewrite Hpids, Hzero. by rewrite slice_from_start.
Qed.

Lemma photos_follow_the_order_in_session_witness :
  let ok : Remote := λ _, Some (Some ∅) in
  let order := ["a"; "b"; "c"; "d"; "e"; "f"; "g"; "h"; "i"; "j"; "k"; "l";
                "m"; "n"]%string in
  let early := [Scroll 800 0 0; Loader (Settle ok)] in
  let later := [Loader Render; FirstBatchEffect; Loader (Settle ok)] in
  let a1 := app_run early app_init in
  let a3 := app_run later (app_step (IdsReady order) a1) in
  start_position (component a1) = 12 ∧
  photo_id <$> photos (state (component a3)) =
    [Some (VStr "m"); Some (VStr "n")].
Proof.
  intros ok order early later a1 a3.
  assert (enumerating a1 = true) as Hen by reflexivity.
  assert (NoDup order) as Hnd.
  { apply (bool_decide_unpack _). vm_compute. reflexivity. }
  assert (Forall session_keyed later) as Hkeyed.
  { repeat (apply Forall_cons; split); try apply Forall_nil; try exact I.
    intros id data [= <-]. vm_compute. reflexivity. }
  assert (triggers_rendered
            (loader_trace later (app_step (IdsReady order) a1))
            (component (app_step (IdsReady order) a1))) as Hfresh.
  { vm_compute. repeat split; intros; discriminate. }
  split; [reflexivity|].
  etrans;
    [exact (proj1 (photos_follow_the_order_in_session early later order
                     Hen Hnd Hkeyed Hfresh))|].
  vm_compute. reflexivity.
Defined.

(** X7.  In a session as in X6: when the view shows "End of gallery.", the
    grid holds one item per id of the order from position [start] on,
    keyed by these ids in their order.  With [start = 0] (no call made
    before the order was stored) that is one item per id of the order:
    the end is not announced with photos missing.  With [start > 0] the
    first [start] ids are missing from the grid. *)
Theorem end_of_gallery_in_session (events1 events2 : list AppEvent)
    (order : list string) :
  let a1 := app_run events1 app_init in
  let a2 := app_step (IdsReady order) a1 in
  let a3 := app_run events2 a2 in
  let start := start_position (component a1) in
  enumerating a1 = true → NoDup order → Forall session_keyed events2 →
  triggers_rendered (loader_trace events2 a2) (component a2) →
  endOfGallery (App_view a3) = true →
  item_key <$> grid (App_view a3) = (Some ∘ VStr) <$> drop start order ∧
  (start = 0 → item_key <$> grid (App_view a3) = (Some ∘ VStr) <$> order).
Proof.
  cbv zeta. intros Hen Hnd Hkeyed Hfresh [Hflag _]%andb_true_iff.
  pose proof (session_loaded_after events1 events2 order Hen Hnd Hkeyed Hfresh)
    as Hla.
  assert (item_key <$> grid (App_view (app_run events2
            (app_step (IdsReady order) (app_run events1 app_init)))) =
          (Some ∘ VStr) <$>
            drop (start_position (component (app_run events1 app_init))) order)
    as Hgrid.
  { unfold App_view. cbn [grid]. rewrite <- list_fmap_compose.
    change (item_key ∘ PhotoItem) with photo_id.
    destruct Hla as [(_ & _ & Hno & _)|(_ & Hle & Hpids & _ & _ & Hall)];
      [congruence|].
    rewrite Hpids. unfold slice. rewrite take_ge; [done|].
    rewrite length_drop. specialize (Hall Hflag). lia. }
  split; [done|]. intros Hzero. by rewrite Hgrid, Hzero.
Qed.

Lemma end_of_gallery_in_session_witness :
  let ok : Remote := λ _, Some (Some ∅) in
  let order := ["a"; "b"; "c"; "d"; "e"; "f"; "g"; "h"; "i"; "j"; "k"; "l";
                "m"; "n"]%string in
  let early := [Scroll 800 0 0; Loader (Settle ok)] in
  let later := [Loader Render; FirstBatchEffect; Loader (Settle ok);
                Loader Render; Scroll 800 0 0] in
  let a1 := app_run early app_init in
  let a3 := app_run later (app_step (IdsReady order) a1) in
  endOfGallery (App_view a3) = true ∧
  item_key <$> grid (App_view a3) = [Some (VStr "m"); Some (VStr "n")].
Proof.
  intros ok order early later a1 a3.
  assert (enumerating a1 = true) as Hen by reflexivity.
  assert (NoDup order) as Hnd.
  { apply (bool_decide_unpack _). vm_compute. reflexivity. }
  assert (Forall session_keyed later) as Hkeyed.
  { repeat (apply Forall_cons; split); try apply Forall_nil; try exact I.
    intros id data [= <-]. vm_compute. reflexivity. }
  assert (triggers_rendered
            (loader_trace later (app_step (IdsReady order) a1))
            (component (app_step (IdsReady order) a1))) as Hfresh.
  { vm_compute. repeat split; intros; discriminate. }
  assert (endOfGallery (App_view a3) = true) as Hend
    by (vm_compute; reflexivity).
  split; [exact Hend|].
  etrans;
    [exact (proj1 (end_of_gallery_in_session early later order
                     Hen Hnd Hkeyed Hfresh Hend))|].
  vm_compute. reflexivity.
Defined.

(** X8.  A session in which no call is in flight when the order is stored,
    the cursor standing at [start] (0 when no call was made before, 12 for
    each call completed before).  With an order without repeated ids and
    documents without an [id] field of their own, after [n] rounds of
    render, call and settlement in which every read resolves, [photos]
    holds exactly the records of the [12 * n] ids that follow position
    [start] in the order (all of those from [start] on once [12 * n]
    reaches the end of the order), in their order. *)
Theorem rounds_load_the_order_in_session (events1 : list AppEvent)
    (order : list string) (remotes : list Remote) :
  let a1 := app_run events1 app_init in
  let a2 := app_step (IdsReady order) a1 in
  let a3 := app_run (Loader <$> loads remotes) a2 in
  let start := currentIndex (state (component a1)) in
  enumerating a1 = true → inflight (component a1) = [] →
  NoDup order → Forall resolves remotes →
  Forall (λ remote, keyed_by_document (Settle remote)) remotes →
  photo_id <$> photos (state (component a3)) =
  (Some ∘ VStr) <$> take (BATCH_SIZE * length remotes) (drop start order).
Proof.
  cbv zeta. intros Hen Hin Hnd Hres Hkeyed.
  destruct (before_the_order events1 _ eq_refl Hen) as [Hempty Hli].
  pose proof (order_stored_loaded_after order _ Hempty Hli) as Hla.
  set (a1 := app_run events1 app_init) in *.
  assert (component (app_step (IdsReady order) a1) =
          setLoading false (setShuffledPhotoIds order (component a1))) as Hc2
    by (simpl; by rewrite Hen).
  assert (enumerating (app_step (IdsReady order) a1) = false) as Hen2
    by (simpl; by rewrite Hen).
  rewrite app_run_component by (by left).
  rewrite loader_trace_Loader, Hc2.
  assert (start_position (component a1) = currentIndex (state (component a1)))
    as Hstart.
  { unfold start_position. rewrite Hin. simpl. lia. }
  rewrite Hstart in Hla.
  destruct Hla as [(_ & _ & _ & _ & p & Hp & _)|Hlf].
  { simpl in Hp. congruence. }
  destruct (run_loads (currentIndex (state (component a1))) order remotes 0
              (setLoading false (setShuffledPhotoIds order (component a1)))
              Hnd Hres Hkeyed Hlf)
    as [(_ & Hle & Hpids & _) Hk].
  { simpl. destruct Hli as [[Hlock _]|[_ [p Hp]]]; [done|congruence]. }
  { done. }
  { left. simpl. lia. }
  rewrite Hpids. unfold slice. f_equal. cbn [Nat.add] in Hk.
  destruct Hk as [->|[H1 H2]].
  - f_equal. lia.
  - rewrite !take_ge; [done| |]; rewrite length_drop; lia.
Qed.

Lemma rounds_load_the_order_in_session_witness :
  let ok : Remote := λ _, Some (Some ∅) in
  let order := ["a"; "b"; "c"; "d"; "e"; "f"; "g"; "h"; "i"; "j"; "k"; "l";
                "m"; "n"]%string in
  let early := [Scroll 800 0 0; Loader (Settle ok)] in
  let a1 := app_run early app_init in
  let a3 := app_run (Loader <$> loads [ok])
              (app_step (IdsReady order) a1) in
  currentIndex (state (component a1)) = 12 ∧
  photo_id <$> photos (state (component a3)) =
    [Some (VStr "m"); Some (VStr "n")].
Proof.
  intros ok order early a1 a3.
  assert (enumerating a1 = true) as Hen by reflexivity.
  assert (inflight (component a1) = []) as Hin by reflexivity.
  assert (NoDup order) as Hnd.
  { apply (bool_decide_unpack _). vm_compute. reflexivity. }
  assert (Forall resolves [ok]) as Hres.
  { repeat constructor; intros id; by eexists. }
  assert (Forall (λ remote, keyed_by_document (Settle remote)) [ok])
    as Hkeyed.
  { repeat constructor; intros id data [= <-]; vm_compute; reflexivity. }
  split; [reflexivity|].
  etrans;
    [exact (rounds_load_the_order_in_session early order [ok]
              Hen Hin Hnd Hres Hkeyed)|].
  vm_compute. reflexivity.
Defined.
